(** * cyber_dash: the breach dashboard of [src/cyber_dash.py]

    A shallow embedding of the data preparation, the aggregate views and
    the three Dash callbacks of the dashboard, followed by the properties
    the specification states about them.

    The data frame [df] is a list of rows in insertion order; a missing
    cell (NaN, NaT, None) is [None]; a Python exception is the [Raise]
    branch of [result]. *)

From Stdlib Require Import ZArith Ascii String.
From stdpp Require Import gmap strings list pretty sorting.

Local Open Scope string_scope.
Local Open Scope list_scope.
Local Open Scope Z_scope.

(** ** Python results *)

Inductive exn := IndexError | NotImplementedError.

Inductive result (A : Type) :=
  | Ok (a : A)
  | Raise (e : exn).
Arguments Ok {A} a.
Arguments Raise {A} e.

Global Instance result_ret : MRet result := λ A a, Ok a.

Global Instance result_bind : MBind result := λ A B k m,
  match m with
  | Ok a => k a
  | Raise e => Raise e
  end.

Global Instance result_fmap : FMap result := λ A B f m,
  match m with
  | Ok a => Ok (f a)
  | Raise e => Raise e
  end.

(** ** The data frame *)

(** A parsed date, [pd.Timestamp] restricted to its calendar fields. *)
Record Timestamp := { ts_year : Z; ts_month : Z; ts_day : Z }.

(** One record of the HIBP payload, [response.json()]. *)
Record RawBreach := {
  raw_Title : string;
  raw_BreachDate : string;
  raw_AddedDate : string;
  raw_PwnCount : Z;
  raw_DataClasses : list string;
  raw_IsVerified : option bool;
  raw_Description : string
}.

(** One row of [df] after section 2 of the script.  [BreachDate] is NaT
    ([None]) where the text did not parse; [Year] is NaN ([None]) where
    [BreachDate] is NaT. *)
Record Row := {
  Title : string;
  BreachDate : option Timestamp;
  AddedDate : option Timestamp;
  PwnCount : Z;
  DataClasses : list string;
  IsVerified : option bool;
  Description : string;
  AccountsAffected : Z;
  Year : option Z;
  BreachTitle : string
}.

Global Instance Timestamp_eq_dec : EqDecision Timestamp.
Proof. solve_decision. Defined.
Global Instance Row_eq_dec : EqDecision Row.
Proof. solve_decision. Defined.

(** [Series.dt.year]: the calendar year, NaN on NaT. *)
Definition dt_year (d : option Timestamp) : option Z := ts_year <$> d.

Section Prepare.
(** [pd.to_datetime(_, errors='coerce')] on one cell: the parsed date,
    or NaT when the text is not a date. *)
Variable to_datetime : string → option Timestamp.
(** [Series.str.replace('<[^<]+?>', '', regex=True)] on one cell. *)
Variable strip_markup : string → string.

Definition prepare_row (r : RawBreach) : Row :=
  let breach_date := to_datetime (raw_BreachDate r) in
  {| Title := raw_Title r;
     BreachDate := breach_date;
     AddedDate := to_datetime (raw_AddedDate r);
     PwnCount := raw_PwnCount r;
     DataClasses := raw_DataClasses r;
     IsVerified := raw_IsVerified r;
     Description := strip_markup (raw_Description r);
     AccountsAffected := raw_PwnCount r;
     Year := dt_year breach_date;
     BreachTitle := raw_Title r |}.

Definition prepare (data : list RawBreach) : list Row :=
  prepare_row <$> data.
End Prepare.

(** A reader of [YYYY-MM-DD], the format of the HIBP payload; one
    admissible behaviour of [to_datetime] on such cells. *)
Definition digit_val (c : ascii) : option Z :=
  let n := Z.of_N (N_of_ascii c) in
  if decide (48 ≤ n ≤ 57) then Some (n - 48) else None.

Definition digits_val (cs : list ascii) : option Z :=
  foldl (λ acc c, a ← acc; d ← digit_val c; Some (10 * a + d)) (Some 0) cs.

Definition days_in_month (y m : Z) : Z :=
  if decide (m = 2) then
    if decide (y `mod` 4 = 0 ∧ (y `mod` 100 ≠ 0 ∨ y `mod` 400 = 0)) then 29 else 28
  else if decide (m = 4 ∨ m = 6 ∨ m = 9 ∨ m = 11) then 30 else 31.

Definition iso_date (s : string) : option Timestamp :=
  match String.list_ascii_of_string s with
  | [y1; y2; y3; y4; "-"%char; m1; m2; "-"%char; d1; d2] =>
      y ← digits_val [y1; y2; y3; y4];
      m ← digits_val [m1; m2];
      d ← digits_val [d1; d2];
      if decide (1 ≤ m ≤ 12 ∧ 1 ≤ d ≤ days_in_month y m)
      then Some {| ts_year := y; ts_month := m; ts_day := d |}
      else None
  | _ => None
  end.

(** ** Formatting, as the f-strings of the callbacks do it *)

(** [str(n).zfill(w)] for a non-negative [n]. *)
Definition zfill (w : nat) (s : string) : string :=
  String.string_of_list_ascii
    (replicate (w - String.length s) "0"%char ++ String.list_ascii_of_string s).

(** What [datetime.date(year, month, day)] accepts: a year from 1 to
    9999 and a day of that month. *)
Definition valid_date (t : Timestamp) : Prop :=
  1 ≤ ts_year t ≤ 9999 ∧ 1 ≤ ts_month t ≤ 12 ∧
  1 ≤ ts_day t ≤ days_in_month (ts_year t) (ts_month t).

(** [breach['BreachDate'].date()] printed by an f-string.  The cell of the
    row is a [Timestamp] or [NaT].  [Timestamp.date()] builds a
    [datetime.date], printed as [YYYY-MM-DD], and raises
    [NotImplementedError] where [datetime.date] refuses the fields, as for
    a year 0.  [NaT.date()] does not raise: it is one of the methods
    pandas defines on NaT to return NaT, which prints as [NaT]. *)
Definition date_str (d : option Timestamp) : result string :=
  match d with
  | Some t =>
      if decide (valid_date t) then
        Ok (zfill 4 (pretty (ts_year t)) +:+ "-" +:+ zfill 2 (pretty (ts_month t))
              +:+ "-" +:+ zfill 2 (pretty (ts_day t)))
      else Raise NotImplementedError
  | None => Ok "NaT"
  end.

(** The digits of a number, least significant first, with a comma after
    every third digit that has a digit above it. *)
Fixpoint commas_rev (k : nat) (ds : list ascii) : list ascii :=
  match ds with
  | [] => []
  | d :: rest =>
      if decide (k = 3%nat) then ","%char :: d :: commas_rev 1 rest
      else d :: commas_rev (S k) rest
  end.

(** [f"{n:,}"] *)
Definition thousands (n : Z) : string :=
  let body :=
    String.string_of_list_ascii
      (reverse (commas_rev 0 (reverse (String.list_ascii_of_string
                                         (pretty (Z.abs n)))))) in
  if decide (n < 0) then "-" +:+ body else body.

Definition nl : string := String (ascii_of_nat 10) "".

(** The f-string both detail callbacks build for a row; only the date can
    make it raise. *)
Definition breach_text (breach : Row) : result string :=
  breach_date ← date_str (BreachDate breach);
  Ok ("Breach: " +:+ BreachTitle breach +:+ nl +:+
      "Breach Date: " +:+ breach_date +:+ nl +:+
      "Accounts Affected: " +:+ thousands (AccountsAffected breach) +:+ nl +:+ nl +:+
      "Description:" +:+ nl +:+ Description breach).

(** ** Click payloads *)

(** One clicked bar: its [x] and its [y].  The year chart is read through
    [x] (the year), the two ranking charts through [y] (the title). *)
Record Point := { pt_x : Z; pt_y : string }.

(** [clickData]: a non-empty dict, hence truthy, with its list of points. *)
Record ClickData := { points : list Point }.

(** [clickData['points'][0]] *)
Definition point0 (clickData : ClickData) : result Point :=
  match points clickData with
  | p :: _ => Ok p
  | [] => Raise IndexError
  end.

(** [frame.iloc[0]] *)
Definition iloc0 (frame : list Row) : result Row :=
  match frame with
  | r :: _ => Ok r
  | [] => Raise IndexError
  end.

(** [df[df['BreachTitle'] == title]] *)
Definition rows_with_title (df : list Row) (title : string) : list Row :=
  filter (λ r, BreachTitle r = title) df.

(** [df[df['Year'] == year]]: a NaN year equals nothing. *)
Definition rows_of_year (df : list Row) (year : Z) : list Row :=
  filter (λ r, Year r = Some year) df.

(** [frame.head(n)] for [n ≥ 0] *)
Definition head {A} (n : nat) (frame : list A) : list A := take n frame.

(** ** Sorting a frame by a column

    [DataFrame.sort_values(by=c, ascending=False)] with one column goes
    through pandas' [nargsort]: the keys are reversed, sorted ascending by
    [ndarray.argsort(kind)], and the indexer is reversed again; the frame
    is then taken at the indexer.  The script passes no [kind], so the
    sort is numpy's default, [quicksort]: which code runs under that name
    depends on the CPU, and numpy promises of it that the indexer sorts
    the keys, not that it keeps equal keys in their order. *)

Section SortValues.
(** [ndarray.argsort(kind=...)] on an int64 column. *)
Variable argsort : list Z → list nat.

Definition nargsort_descending (items : list Z) : list nat :=
  let n := length items in
  reverse ((λ j, n - 1 - j)%nat <$> argsort (reverse items)).

(** [frame.take(indexer)] *)
Definition take_rows {A} (frame : list A) (indexer : list nat) : list A :=
  omap (λ i, frame !! i) indexer.

(** [frame.sort_values(by='AccountsAffected', ascending=False)] *)
Definition sort_values (frame : list Row) : list Row :=
  take_rows frame (nargsort_descending (AccountsAffected <$> frame)).

(** The values of a series of counts, as the int64 array that is sorted. *)
Definition count_values {K} (series : list (K * nat)) : list Z :=
  (λ kc, Z.of_nat kc.2) <$> series.

(** [series.sort_values(ascending=False)] on a series of counts, kept
    with its index labels. *)
Definition series_sort_values {K} (series : list (K * nat)) : list (K * nat) :=
  take_rows series (nargsort_descending (count_values series)).

(** [top_breaches], with the 15 of the script as [n]. *)
Definition top_n (n : nat) (frame : list Row) : list Row :=
  head n (sort_values frame).

Definition top_breaches (df : list Row) : list Row := top_n 15 df.
End SortValues.

(** What every [kind] of [argsort] returns on the keys [v]: every position
    once, the keys read through it in non-decreasing order. *)
Definition is_argsort (v : list Z) (idx : list nat) : Prop :=
  idx ≡ₚ seq 0 (length v) ∧ Sorted Z.le ((λ i, v !!! i) <$> idx).

(** numpy's portable index quicksort for int64 keys ([aquicksort_] and
    [aheapsort_] of npysort): median of three, insertion sort on runs of
    at most 17 elements, heapsort when the depth limit is used up.  This
    is the code behind [argsort(kind='quicksort')] only where numpy
    dispatches no vectorised sort; on a CPU with AVX2 or AVX-512 a
    vectorised sort runs in its place and leaves equal keys in another
    order.  No property of the script below rests on this module: the
    properties of the rankings are stated for every [argsort] that
    returns a sorting indexer, and [npysort.argsort] is one such
    [argsort], on which the definitions can be run.  [a] is the array
    [tosort]; [pl], [pr], [pi], [pj] are offsets into it.  The loops of
    the C code carry fuel here, always more than they use. *)
Module npysort.
Definition SMALL_QUICKSORT : Z := 16.

Definition rd (a : list nat) (p : Z) : nat := a !!! Z.to_nat p.
Definition wr (a : list nat) (p : Z) (x : nat) : list nat :=
  <[Z.to_nat p := x]> a.
Definition INTP_SWAP (a : list nat) (p q : Z) : list nat :=
  wr (wr a p (rd a q)) q (rd a p).
(** [v[*p]] *)
Definition key (v : list Z) (a : list nat) (p : Z) : Z := v !!! rd a p.

(** [do { ++pi; } while (v[*pi] < vp);] *)
Fixpoint scan_up (fuel : nat) (v : list Z) (a : list nat) (vp pi : Z) : Z :=
  let pi := pi + 1 in
  match fuel with
  | O => pi
  | S fuel => if decide (key v a pi < vp) then scan_up fuel v a vp pi else pi
  end.

(** [do { --pj; } while (vp < v[*pj]);] *)
Fixpoint scan_down (fuel : nat) (v : list Z) (a : list nat) (vp pj : Z) : Z :=
  let pj := pj - 1 in
  match fuel with
  | O => pj
  | S fuel => if decide (vp < key v a pj) then scan_down fuel v a vp pj else pj
  end.

(** The [for (;;)] of the partition; returns [tosort] and [pi]. *)
Fixpoint partition_loop (fuel : nat) (v : list Z) (a : list nat)
    (vp pi pj : Z) : list nat * Z :=
  let pi := scan_up (length a) v a vp pi in
  let pj := scan_down (length a) v a vp pj in
  if decide (pi >= pj) then (a, pi)
  else match fuel with
       | O => (a, pi)
       | S fuel => partition_loop fuel v (INTP_SWAP a pi pj) vp pi pj
       end.

Definition partition (v : list Z) (a : list nat) (pl pr : Z) : list nat * Z :=
  let pm := pl + Z.shiftr (pr - pl) 1 in
  let a := if decide (key v a pm < key v a pl) then INTP_SWAP a pm pl else a in
  let a := if decide (key v a pr < key v a pm) then INTP_SWAP a pr pm else a in
  let a := if decide (key v a pm < key v a pl) then INTP_SWAP a pm pl else a in
  let vp := key v a pm in
  let pi := pl in
  let pj := pr - 1 in
  let a := INTP_SWAP a pm pj in
  let '(a, pi) := partition_loop (length a) v a vp pi pj in
  let pk := pr - 1 in
  (INTP_SWAP a pi pk, pi).

(** [while (pj > pl && vp < v[*pk]) { *pj-- = *pk--; }] with [pk = pj - 1] *)
Fixpoint shift_up (fuel : nat) (v : list Z) (a : list nat)
    (pl vp pj : Z) : list nat * Z :=
  match fuel with
  | O => (a, pj)
  | S fuel =>
      if decide (pj > pl ∧ vp < key v a (pj - 1))
      then shift_up fuel v (wr a pj (rd a (pj - 1))) pl vp (pj - 1)
      else (a, pj)
  end.

(** [for (pi = pl + 1; pi <= pr; ++pi)] of the insertion sort *)
Fixpoint insertion_loop (fuel : nat) (v : list Z) (a : list nat)
    (pl pr pi : Z) : list nat :=
  match fuel with
  | O => a
  | S fuel =>
      if decide (pi <= pr) then
        let vi := rd a pi in
        let vp := v !!! vi in
        let '(a, pj) := shift_up (length a) v a pl vp pi in
        insertion_loop fuel v (wr a pj vi) pl pr (pi + 1)
      else a
  end.

(** The sift-down loop of [aheapsort_]; [base] is [tosort - 1], so the
    heap is one-based.  Returns [tosort] and [i]. *)
Fixpoint sift (fuel : nat) (v : list Z) (a : list nat)
    (base n : Z) (tmp : nat) (i j : Z) : list nat * Z :=
  match fuel with
  | O => (a, i)
  | S fuel =>
      if decide (j <= n) then
        let j := if decide (j < n ∧ key v a (base + j) < key v a (base + j + 1))
                 then j + 1 else j in
        if decide (v !!! tmp < key v a (base + j))
        then sift fuel v (wr a (base + i) (rd a (base + j))) base n tmp j (j + j)
        else (a, i)
      else (a, i)
  end.

(** [for (l = n >> 1; l > 0; --l)] *)
Fixpoint heapify (fuel : nat) (v : list Z) (a : list nat) (base n l : Z) : list nat :=
  match fuel with
  | O => a
  | S fuel =>
      if decide (l > 0) then
        let tmp := rd a (base + l) in
        let '(a, i) := sift (length a) v a base n tmp l (Z.shiftl l 1) in
        heapify fuel v (wr a (base + i) tmp) base n (l - 1)
      else a
  end.

(** [for (; n > 1;)] *)
Fixpoint heap_pop_loop (fuel : nat) (v : list Z) (a : list nat) (base n : Z) : list nat :=
  match fuel with
  | O => a
  | S fuel =>
      if decide (n > 1) then
        let tmp := rd a (base + n) in
        let a := wr a (base + n) (rd a (base + 1)) in
        let n := n - 1 in
        let '(a, i) := sift (length a) v a base n tmp 1 2 in
        heap_pop_loop fuel v (wr a (base + i) tmp) base n
      else a
  end.

Definition aheapsort (v : list Z) (a : list nat) (pl n : Z) : list nat :=
  let base := pl - 1 in
  let a := heapify (length a) v a base n (Z.shiftr n 1) in
  heap_pop_loop (length a) v a base n.

(** The [while (1)] of [aquicksort_].  [top] is true at the head of the
    outer loop, where the depth limit is tested, and false inside the
    partitioning [while]; [stack] holds the postponed runs with their
    depth. *)
Fixpoint quicksort_loop (fuel : nat) (v : list Z) (a : list nat)
    (pl pr : Z) (stack : list (Z * Z * Z)) (cdepth : Z) (top : bool) : list nat :=
  let stack_pop (fuel : nat) (a : list nat) :=
    match stack with
    | [] => a
    | (pl, pr, cdepth) :: stack => quicksort_loop fuel v a pl pr stack cdepth true
    end in
  match fuel with
  | O => a
  | S fuel =>
      if decide (top = true ∧ cdepth < 0) then
        stack_pop fuel (aheapsort v a pl (pr - pl + 1))
      else if decide (pr - pl > SMALL_QUICKSORT) then
        let '(a, pi) := partition v a pl pr in
        let cdepth := cdepth - 1 in
        if decide (pi - pl < pr - pi)
        then quicksort_loop fuel v a pl (pi - 1) ((pi + 1, pr, cdepth) :: stack) cdepth false
        else quicksort_loop fuel v a (pi + 1) pr ((pl, pi - 1, cdepth) :: stack) cdepth false
      else
        stack_pop fuel (insertion_loop (length a) v a pl pr (pl + 1))
  end.

(** [npy_get_msb(num) * 2] *)
Definition depth_limit (num : Z) : Z := Z.log2 num * 2.

Definition aquicksort (v : list Z) (tosort : list nat) : list nat :=
  let num := Z.of_nat (length tosort) in
  quicksort_loop (2 * length tosort + 2) v tosort 0 (num - 1) [] (depth_limit num) true.

(** [v.argsort(kind='quicksort')] *)
Definition argsort (v : list Z) : list nat := aquicksort v (seq 0 (length v)).
End npysort.

(** ** Counting *)

(** [mapping[elem] = mapping.get(elem, 0) + 1] on a dict, which keeps its
    keys in the order of their first insertion. *)
Fixpoint count_element `{EqDecision K} (elem : K) (mapping : list (K * nat))
    : list (K * nat) :=
  match mapping with
  | [] => [(elem, 1%nat)]
  | (k, n) :: mapping =>
      if decide (k = elem) then (k, S n) :: mapping
      else (k, n) :: count_element elem mapping
  end.

(** [collections.Counter(iterable)] *)
Definition Counter `{EqDecision K} (iterable : list K) : list (K * nat) :=
  foldl (λ mapping elem, count_element elem mapping) [] iterable.

(** One step of a stable descending sort on the count: [x], which stood
    before every element of [l], goes before the first element that does
    not have a larger count. *)
Fixpoint insert_by_count {K} (x : K * nat) (l : list (K * nat)) : list (K * nat) :=
  match l with
  | [] => [x]
  | y :: l' =>
      if decide (y.2 ≤ x.2)%nat then x :: y :: l'
      else y :: insert_by_count x l'
  end.

(** [sorted(items, key=itemgetter(1), reverse=True)]: Python's sort is
    stable, also with [reverse=True]. *)
Definition sorted_by_count_reverse {K} (items : list (K * nat)) : list (K * nat) :=
  foldr insert_by_count [] items.

(** [Counter.most_common()] *)
Definition most_common {K} (counter : list (K * nat)) : list (K * nat) :=
  sorted_by_count_reverse counter.

(** [sum(df['DataClasses'], [])] *)
Definition all_classes (df : list Row) : list string :=
  foldl (λ acc classes, acc ++ classes) [] (DataClasses <$> df).

(** [class_counts], with the 20 of the script as [k]. *)
Definition class_counts_head (k : nat) (df : list Row) : list (string * nat) :=
  head k (most_common (Counter (all_classes df))).

Definition class_counts (df : list Row) : list (string * nat) :=
  class_counts_head 20 df.

(** The [Count] column added up. *)
Definition total_count {K} (counts : list (K * nat)) : nat := sum_list_with snd counts.

(** The count a frame of counts holds for a label, 0 when the label has no
    row. *)
Definition count_of `{EqDecision K} (label : K) (counts : list (K * nat)) : nat :=
  total_count (filter (λ kc, kc.1 = label) counts).

Section VerifiedCounts.
Variable argsort : list Z → list nat.

(** [series.value_counts()]: missing values are dropped, the values
    are counted in the order of first appearance, and the counts are
    sorted descending. *)
Definition value_counts `{EqDecision K} (series : list (option K)) : list (K * nat) :=
  series_sort_values argsort (Counter (omap id series)).

(** The counts of [df['IsVerified']] before they are sorted. *)
Definition verified_tally (df : list Row) : list (bool * nat) :=
  Counter (omap id (IsVerified <$> df)).

(** [.rename({True: 'Verified', False: 'Unverified'})] *)
Definition rename_verified (b : bool) : string :=
  if b then "Verified" else "Unverified".

(** [verified_counts], columns [VerificationStatus] and [Count]. *)
Definition verified_counts (df : list Row) : list (string * nat) :=
  prod_map rename_verified id <$> value_counts (IsVerified <$> df).
End VerifiedCounts.

(** ** The callbacks *)

(** What [px.bar] is given: the frame drawn and the title. *)
Record Figure := { fig_frame : list Row; fig_title : string }.

Global Instance Figure_eq_dec : EqDecision Figure.
Proof. solve_decision. Defined.

Definition breach_details_prompt : string :=
  "Click on a bar above to see breach details.".
Definition yearly_breach_details_prompt : string :=
  "Click on a breach to see details.".
Definition year_chart_prompt : Figure :=
  {| fig_frame := []; fig_title := "Click a year to view top breaches." |}.

Definition display_breach_details (df : list Row) (clickData : option ClickData)
    : result string :=
  match clickData with
  | Some clickData =>
      point ← point0 clickData;
      let title_clicked := pt_y point in
      breach ← iloc0 (rows_with_title df title_clicked);
      breach_text breach
  | None => Ok breach_details_prompt
  end.

Section YearChart.
Variable argsort : list Z → list nat.

Definition update_top_breaches_for_year (df : list Row)
    (clickData : option ClickData) : result Figure :=
  match clickData with
  | Some clickData =>
      point ← point0 clickData;
      let year_clicked := pt_x point in
      let top5 := head 5 (sort_values argsort (rows_of_year df year_clicked)) in
      Ok {| fig_frame := top5;
            fig_title := "Top 5 Breaches in " +:+ pretty year_clicked |}
  | None => Ok year_chart_prompt
  end.
End YearChart.

Definition display_yearly_breach_details (df : list Row)
    (clickData : option ClickData) : result string :=
  match clickData with
  | Some clickData =>
      point ← point0 clickData;
      let title_clicked := pt_y point in
      breach ← iloc0 (rows_with_title df title_clicked);
      breach_text breach
  | None => Ok yearly_breach_details_prompt
  end.

(** ** The binding graph

    [@app.callback(Output(o, _), Input(i, 'clickData'))] binds a function
    to the click property of component [i] and writes what it returns to
    component [o].  The page state is the content of the output
    components.  Dash calls every callback once with no click when the
    page loads; a click on component [i] runs the callbacks bound to [i];
    a callback that raises updates nothing. *)

Inductive Rendering :=
  | Children (text : string)
  | FigureOf (fig : Figure).

Global Instance Rendering_eq_dec : EqDecision Rendering.
Proof. solve_decision. Defined.

Record Callback := {
  cb_output : string;
  cb_input : string;
  cb_fun : option ClickData → result Rendering
}.

Record SelectionEvent := { ev_source : string; ev_click : ClickData }.

Inductive NodeState := Empty | Populated.

Section Dashboard.
Variable argsort : list Z → list nat.
Variable df : list Row.

Definition callbacks : list Callback :=
  [ {| cb_output := "breach-details";
       cb_input := "top-breaches-chart";
       cb_fun := λ clickData, Children <$> display_breach_details df clickData |};
    {| cb_output := "top-breaches-year-chart";
       cb_input := "breaches-over-time-chart";
       cb_fun := λ clickData,
         FigureOf <$> update_top_breaches_for_year argsort df clickData |};
    {| cb_output := "yearly-breach-details";
       cb_input := "top-breaches-year-chart";
       cb_fun := λ clickData,
         Children <$> display_yearly_breach_details df clickData |} ].

(** One callback run on a click property. *)
Definition fire (clickData : option ClickData) (page : gmap string Rendering)
    (cb : Callback) : gmap string Rendering :=
  match cb_fun cb clickData with
  | Ok rendering => <[cb_output cb := rendering]> page
  | Raise _ => page
  end.

(** The page after load. *)
Definition initial_page : gmap string Rendering :=
  foldl (fire None) ∅ callbacks.

(** The page after one selection event. *)
Definition dispatch (page : gmap string Rendering) (ev : SelectionEvent)
    : gmap string Rendering :=
  foldl (fire (Some (ev_click ev))) page
    (filter (λ cb, cb_input cb = ev_source ev) callbacks).

Definition run (page : gmap string Rendering) (evs : list SelectionEvent)
    : gmap string Rendering :=
  foldl dispatch page evs.

(** The components written by the callbacks bound to one of [sources]. *)
Definition direct_dependents (sources : list string) : list string :=
  cb_output <$> filter (λ cb, cb_input cb ∈ sources) callbacks.

Fixpoint dependents_upto (depth : nat) (sources : list string) : list string :=
  match depth with
  | O => []
  | S depth =>
      let direct := direct_dependents sources in
      direct ++ dependents_upto depth direct
  end.

(** The transitive dependents of a component. *)
Definition dependents (source : string) : list string :=
  dependents_upto (length callbacks) [source].

(** A node is [Empty] while it shows what it showed at load, the
placeholder, and [Populated] otherwise. *)
Definition node_state (page : gmap string Rendering) (node : string) : NodeState :=
  if decide (page !! node = initial_page !! node) then Empty else Populated.
End Dashboard.

(** ** Markup in descriptions

    [df['Description'].str.replace('<[^<]+?>', '', regex=True)] is
    [re.sub] on every cell.  The pattern matches a [<], then one or more
    characters other than [<], as few as possible, then a [>]: from a
    [<], the match runs to the first [>] that stands at least two
    characters further, provided no [<] comes before it.  [re.sub] tries
    the pattern at every position from the left, drops what matches and
    copies the character where nothing does. *)

(** The rest of [[^<]+?>] once its first character is read: the text
    behind the first [>], unless a [<] or the end comes first. *)
Fixpoint close_tag (s : list ascii) : option (list ascii) :=
  match s with
  | [] => None
  | c :: rest =>
      if decide (c = ">"%char) then Some rest
      else if decide (c = "<"%char) then None
      else close_tag rest
  end.

(** The pattern tried at the head of [s]: the text behind the match. *)
Definition match_tag (s : list ascii) : option (list ascii) :=
  match s with
  | c0 :: c1 :: rest =>
      if decide (c0 = "<"%char ∧ c1 ≠ "<"%char) then close_tag rest else None
  | _ => None
  end.

(** [re.sub('<[^<]+?>', '', s)]; [fuel] bounds the positions tried. *)
Fixpoint re_sub_markup (fuel : nat) (s : list ascii) : list ascii :=
  match fuel with
  | O => s
  | S fuel =>
      match s with
      | [] => []
      | c :: rest =>
          match match_tag s with
          | Some after => re_sub_markup fuel after
          | None => c :: re_sub_markup fuel rest
          end
      end
  end.

Definition re_sub (s : list ascii) : list ascii := re_sub_markup (length s) s.

Definition str_replace_markup (description : string) : string :=
  String.string_of_list_ascii (re_sub (String.list_ascii_of_string description)).

(** Sections 1 and 2 of the script on a payload: the frame [df]. *)
Definition load (to_datetime : string → option Timestamp) (data : list RawBreach)
    : list Row :=
  prepare to_datetime str_replace_markup data.

(** ** Breaches per year *)

(** Group keys are compared by value. *)
Definition key_le (a b : Z * nat) : Prop := a.1 ≤ b.1.

Global Instance key_le_dec : RelDecision key_le.
Proof. intros a b. unfold key_le. apply _. Defined.

(** [frame.groupby(c).size()] on a column of years: rows whose key is NaN
    are left out, every other key has one group holding its number of
    rows, and the groups come in ascending order of the key. *)
Definition groupby_size (keys : list (option Z)) : list (Z * nat) :=
  merge_sort key_le (Counter (omap id keys)).

(** [breaches_by_year], columns [Year] and [Count]. *)
Definition breaches_by_year (df : list Row) : list (Z * nat) :=
  groupby_size (Year <$> df).


(** The click a bar of a ranking chart sends: [x] is the count of its
    row and [y] its title. *)
Definition bar_click (r : Row) : ClickData :=
  {| points := [ {| pt_x := AccountsAffected r; pt_y := BreachTitle r |} ] |}.

(** ** Vocabulary of the properties *)

Global Instance is_argsort_dec (v : list Z) (idx : list nat) :
  Decision (is_argsort v idx).
Proof. unfold is_argsort. apply _. Defined.

(** The number of times [c] occurs in [l]. *)
Definition occurrences `{EqDecision K} (c : K) (l : list K) : nat :=
  length (filter (λ x, x = c) l).

(** The distinct elements of [l] in the order of their first occurrence. *)
Definition distinct `{EqDecision K} (l : list K) : list K :=
  foldl (λ seen x, if decide (x ∈ seen) then seen else seen ++ [x]) [] l.

(** [c1] is met in [l] before any [c2] is. *)
Definition seen_before {K} (l : list K) (c1 c2 : K) : Prop :=
  c1 ≠ c2 ∧ ∃ l1 l2, l = l1 ++ c1 :: l2 ∧ (c1 ∉ l1) ∧ (c2 ∉ l1).

(** [x] stands at an earlier position of [l] than [y]. *)
Definition precedes {A} (l : list A) (x y : A) : Prop :=
  ∃ i j : nat, (i < j)%nat ∧ l !! i = Some x ∧ l !! j = Some y.

(** [x] is ranked before [y] in the sort of [items]: by a larger count,
    or at an equal count by an earlier position in [items]. *)
Definition ranked_before {K} (items : list (K * nat)) (x y : K * nat) : Prop :=
  (y.2 < x.2)%nat ∨ (x.2 = y.2 ∧ precedes items x y).

(** Σ |dataClasses| over the rows. *)
Definition classes_total (df : list Row) : nat :=
  sum_list_with (λ r, length (DataClasses r)) df.

(** What a detail panel may hold: its prompt, or the text of a row. *)
Definition panel_ok (prompt : string) (df : list Row) (content : option Rendering)
    : Prop :=
  content = Some (Children prompt) ∨
  ∃ row text,
    row ∈ df ∧ breach_text row = Ok text ∧ content = Some (Children text).

(** What the year chart may hold: its prompt, or at most five rows of one
    year under the title of that year. *)
Definition chart_ok (df : list Row) (content : option Rendering) : Prop :=
  content = Some (FigureOf year_chart_prompt) ∨
  ∃ fig year,
    content = Some (FigureOf fig) ∧
    fig_title fig = "Top 5 Breaches in " +:+ pretty year ∧
    (length (fig_frame fig) ≤ 5)%nat ∧
    ∀ row, row ∈ fig_frame fig → row ∈ df ∧ Year row = Some year.

Definition page_ok (df : list Row) (page : gmap string Rendering) : Prop :=
  panel_ok breach_details_prompt df (page !! "breach-details") ∧
  chart_ok df (page !! "top-breaches-year-chart") ∧
  panel_ok yearly_breach_details_prompt df (page !! "yearly-breach-details").

(** ** Sample frames, used to run the definitions *)

Definition sample_raw : list RawBreach :=
  [ {| raw_Title := "Adobe"; raw_BreachDate := "2013-10-04";
       raw_AddedDate := "2013-12-04"; raw_PwnCount := 152445165;
       raw_DataClasses := ["Email addresses"; "Password hints"; "Passwords"; "Usernames"];
       raw_IsVerified := Some true; raw_Description := "Adobe accounts" |};
    {| raw_Title := "Collection"; raw_BreachDate := "unknown";
       raw_AddedDate := "2019-01-16"; raw_PwnCount := 772904991;
       raw_DataClasses := ["Email addresses"; "Passwords"];
       raw_IsVerified := Some false; raw_Description := "A collection" |};
    {| raw_Title := "Adobe"; raw_BreachDate := "2019-02-28";
       raw_AddedDate := "2019-03-01"; raw_PwnCount := 1200;
       raw_DataClasses := ["Passwords"; "IP addresses"];
       raw_IsVerified := None; raw_Description := "A second Adobe" |} ].

Definition sample_df : list Row := prepare iso_date id sample_raw.

Definition click (x : Z) (y : string) : ClickData :=
  {| points := [ {| pt_x := x; pt_y := y |} ] |}.

(** A frame of 21 rows, each with one data class of its own. *)
Definition one_class_row (i : nat) : Row :=
  {| Title := pretty i; BreachDate := None; AddedDate := None; PwnCount := 0;
     DataClasses := [pretty i]; IsVerified := Some true; Description := "";
     AccountsAffected := 0; Year := None; BreachTitle := pretty i |}.

Definition df_21_classes : list Row := one_class_row <$> seq 0 21.

(** A row with a title and a count only. *)
Definition plain_row (title : string) (accounts : Z) : Row :=
  {| Title := title; BreachDate := None; AddedDate := None; PwnCount := accounts;
     DataClasses := []; IsVerified := Some true; Description := "";
     AccountsAffected := accounts; Year := None; BreachTitle := title |}.

(** Twenty rows whose counts descend, most of them in tied pairs. *)
Definition df_ties : list Row :=
  [ plain_row "b00" 10; plain_row "b01" 9; plain_row "b02" 9; plain_row "b03" 8;
    plain_row "b04" 8; plain_row "b05" 7; plain_row "b06" 7; plain_row "b07" 6;
    plain_row "b08" 6; plain_row "b09" 5; plain_row "b10" 5; plain_row "b11" 4;
    plain_row "b12" 4; plain_row "b13" 3; plain_row "b14" 3; plain_row "b15" 2;
    plain_row "b16" 2; plain_row "b17" 1; plain_row "b18" 1; plain_row "b19" 0 ].

(** Four rows, two without accounts and then two with one. *)
Definition df_two_ties : list Row :=
  [ plain_row "t00" 0; plain_row "t01" 0; plain_row "t02" 1; plain_row "t03" 1 ].

(** A row with a title, a count and a date on the first of January. *)
Definition dated_row (title : string) (accounts : Z) (year : Z) : Row :=
  {| Title := title;
     BreachDate := Some {| ts_year := year; ts_month := 1; ts_day := 1 |};
     AddedDate := None; PwnCount := accounts;
     DataClasses := ["Email addresses"]; IsVerified := Some true; Description := "";
     AccountsAffected := accounts; Year := Some year; BreachTitle := title |}.

(** Two breaches under one title; the first is dated in the year 0, which
    [to_datetime] reads and [datetime.date] refuses. *)
Definition df_year_zero : list Row :=
  [ dated_row "Ancient" 100 0; dated_row "Ancient" 200 2019 ].

(** Three breaches, two of 2019 and one of 2020. *)
Definition df_three : list Row :=
  [ dated_row "Alpha" 100 2019; dated_row "Beta" 500 2019; dated_row "Gamma" 50 2020 ].

(** * Properties *)

Example sample_years : Year <$> sample_df = [Some 2013; None; Some 2019].
Proof. reflexivity. Qed.

Example sample_details :
  display_breach_details sample_df (Some (click 1 "Collection"))
  = Ok ("Breach: Collection" +:+ nl +:+ "Breach Date: NaT" +:+ nl +:+
        "Accounts Affected: 772,904,991" +:+ nl +:+ nl +:+
        "Description:" +:+ nl +:+ "A collection").
Proof. reflexivity. Qed.

Example sample_details_date :
  display_yearly_breach_details sample_df (Some (click 1 "Adobe"))
  = Ok ("Breach: Adobe" +:+ nl +:+ "Breach Date: 2013-10-04" +:+ nl +:+
        "Accounts Affected: 152,445,165" +:+ nl +:+ nl +:+
        "Description:" +:+ nl +:+ "Adobe accounts").
Proof. reflexivity. Qed.

Example sample_class_counts :
  class_counts sample_df
  = [("Passwords", 3%nat); ("Email addresses", 2%nat); ("Password hints", 1%nat);
     ("Usernames", 1%nat); ("IP addresses", 1%nat)].
Proof. reflexivity. Qed.

Example sample_verified_counts :
  verified_counts npysort.argsort sample_df
  = [("Verified", 1%nat); ("Unverified", 1%nat)].
Proof. reflexivity. Qed.

Example thousands_examples :
  thousands 0 = "0" ∧ thousands 999 = "999" ∧ thousands 1000 = "1,000" ∧
  thousands 1234567 = "1,234,567" ∧ thousands (-1234) = "-1,234".
Proof. split_and!; reflexivity. Qed.

Example date_str_examples :
  date_str (iso_date "2013-10-04") = Ok "2013-10-04" ∧
  date_str (iso_date "2013-02-29") = Ok "NaT" ∧
  date_str (Some {| ts_year := 987; ts_month := 1; ts_day := 2 |}) = Ok "0987-01-02" ∧
  date_str (iso_date "0000-01-01") = Raise NotImplementedError ∧
  date_str (Some {| ts_year := 10000; ts_month := 1; ts_day := 1 |})
    = Raise NotImplementedError.
Proof. split_and!; reflexivity. Qed.

Example argsort_examples :
  npysort.argsort [3; 1; 2] = [1; 2; 0]%nat ∧
  npysort.argsort [5; 4; 3; 2; 1; 9; 8; 7; 6; 0; 15; 14; 13; 12; 11; 10; 20; 19;
                   18; 17; 16; 25; 24; 23]
  = [9; 4; 3; 2; 1; 0; 8; 7; 6; 5; 15; 14; 13; 12; 11; 10; 20; 19; 18; 17; 16;
     23; 22; 21]%nat.
Proof. split; vm_compute; reflexivity. Qed.

Example sample_top :
  BreachTitle <$> top_n npysort.argsort 2 sample_df = ["Collection"; "Adobe"].
Proof. reflexivity. Qed.

(** ** Lookup by title *)

Lemma rows_with_title_none (df : list Row) (title : string) :
  title ∉ BreachTitle <$> df → rows_with_title df title = [].
Proof.
  unfold rows_with_title. induction df as [|r df IH]; intros Hnot; [done|].
  rewrite fmap_cons, not_elem_of_cons in Hnot. destruct Hnot as [Hne Hnot].
  rewrite filter_cons_False by congruence. auto.
Qed.

Lemma rows_with_title_first (df : list Row) (title : string) :
  title ∈ BreachTitle <$> df →
  ∃ before breach after,
    df = before ++ breach :: after ∧ BreachTitle breach = title ∧
    Forall (λ r, BreachTitle r ≠ title) before ∧
    iloc0 (rows_with_title df title) = Ok breach.
Proof.
  unfold rows_with_title. induction df as [|r df IH]; intros Hin.
  - by apply elem_of_nil in Hin.
  - destruct (decide (BreachTitle r = title)) as [Heq|Hne].
    + exists [], r, df. rewrite filter_cons_True by done. by repeat split.
    + rewrite fmap_cons, elem_of_cons in Hin.
      destruct Hin as [Heq|Hin]; [congruence|].
      destruct (IH Hin) as (before & breach & after & -> & Ht & Hb & Hi).
      exists (r :: before), breach, after.
      rewrite filter_cons_False by done. repeat split; auto.
Qed.

Lemma rows_with_title_some (df : list Row) (title : string) (breach : Row) :
  iloc0 (rows_with_title df title) = Ok breach → title ∈ BreachTitle <$> df.
Proof.
  unfold iloc0. destruct (rows_with_title df title) as [|r l] eqn:E; [done|].
  intros [= ->].
  assert (breach ∈ rows_with_title df title) as Hin by (rewrite E; left).
  apply list_elem_of_filter in Hin as [<- Hin].
  by apply list_elem_of_fmap_2.
Qed.

(** The two detail callbacks differ in their prompt only. *)
Lemma display_details_found (df : list Row) (clickData : ClickData)
    (point : Point) (rest : list Point) (breach : Row) :
  points clickData = point :: rest →
  iloc0 (rows_with_title df (pt_y point)) = Ok breach →
  display_breach_details df (Some clickData) = breach_text breach ∧
  display_yearly_breach_details df (Some clickData) = breach_text breach.
Proof.
  intros Hp Hrow.
  unfold display_breach_details, display_yearly_breach_details, point0.
  rewrite Hp. simpl. rewrite Hrow. done.
Qed.

(** What [breach_text] returns, by the date of the row. *)
Lemma breach_text_cases (breach : Row) :
  (BreachDate breach = None → date_str (BreachDate breach) = Ok "NaT") ∧
  (∀ t, BreachDate breach = Some t → valid_date t →
        ∃ text, breach_text breach = Ok text) ∧
  (∀ t, BreachDate breach = Some t → ¬ valid_date t →
        breach_text breach = Raise NotImplementedError) ∧
  (BreachDate breach = None → ∃ text, breach_text breach = Ok text).
Proof.
  unfold breach_text, date_str. split_and!.
  - by intros ->.
  - intros t -> Hv. rewrite decide_True by done. by eexists.
  - intros t -> Hv. by rewrite decide_False.
  - intros ->. by eexists.
Qed.

Lemma breach_text_not_prompt (breach : Row) (text : string) :
  breach_text breach = Ok text →
  text ≠ breach_details_prompt ∧ text ≠ yearly_breach_details_prompt.
Proof.
  unfold breach_text. destruct (date_str (BreachDate breach)) as [d|]; [|done].
  simpl. intros [= <-]. split; discriminate.
Qed.

Lemma display_details_missing (df : list Row) (clickData : ClickData)
    (point : Point) (rest : list Point) :
  points clickData = point :: rest →
  pt_y point ∉ BreachTitle <$> df →
  display_breach_details df (Some clickData) = Raise IndexError ∧
  display_yearly_breach_details df (Some clickData) = Raise IndexError.
Proof.
  intros Hp Hnot.
  unfold display_breach_details, display_yearly_breach_details, point0.
  rewrite Hp. simpl. by rewrite rows_with_title_none.
Qed.

(** ** The page under events *)

Section Page.
Context (argsort : list Z → list nat) (df : list Row).

Lemma fire_frame (cd : option ClickData) (cbs : list Callback)
    (page : gmap string Rendering) (node : string) :
  node ∉ cb_output <$> cbs →
  foldl (fire cd) page cbs !! node = page !! node.
Proof.
  revert page. induction cbs as [|cb cbs IH]; intros page Hnot; [done|].
  rewrite fmap_cons, not_elem_of_cons in Hnot. destruct Hnot as [Hne Hnot].
  simpl. rewrite IH by done. unfold fire.
  destruct (cb_fun cb cd); [|done]. by rewrite lookup_insert_ne.
Qed.

Lemma dispatch_frame_direct (page : gmap string Rendering)
    (ev : SelectionEvent) (node : string) :
  node ∉ direct_dependents argsort df [ev_source ev] →
  dispatch argsort df page ev !! node = page !! node.
Proof.
  intros Hnot. apply fire_frame. intros Hin. apply Hnot.
  unfold direct_dependents.
  apply list_elem_of_fmap in Hin as (cb & -> & Hcb).
  apply list_elem_of_fmap_2.
  apply list_elem_of_filter in Hcb as [Heq Hcb].
  apply list_elem_of_filter. split; [|done]. rewrite Heq. left.
Qed.

Lemma direct_in_dependents (source node : string) :
  node ∈ direct_dependents argsort df [source] →
  node ∈ dependents argsort df source.
Proof. intros Hin. unfold dependents. simpl. apply elem_of_app. by left. Qed.

(** An event at a ranking chart whose callback raises leaves the page
    as it is. *)
Lemma dispatch_details_raise (page : gmap string Rendering)
    (clickData : ClickData) (source : string) :
  display_breach_details df (Some clickData) = Raise IndexError →
  display_yearly_breach_details df (Some clickData) = Raise IndexError →
  source ∈ ["top-breaches-chart"; "top-breaches-year-chart"] →
  dispatch argsort df page {| ev_source := source; ev_click := clickData |} = page.
Proof.
  intros H1 H2 Hsrc.
  apply elem_of_cons in Hsrc as [->|Hsrc];
    [|apply list_elem_of_singleton in Hsrc as ->];
    unfold dispatch, callbacks; simpl; unfold fire, cb_fun;
    [rewrite H1|rewrite H2]; done.
Qed.
End Page.

Section PageStates.
Context (argsort : list Z → list nat) (df : list Row).

Lemma initial_page_lookup :
  initial_page argsort df !! "breach-details"
    = Some (Children breach_details_prompt) ∧
  initial_page argsort df !! "top-breaches-year-chart"
    = Some (FigureOf year_chart_prompt) ∧
  initial_page argsort df !! "yearly-breach-details"
    = Some (Children yearly_breach_details_prompt).
Proof.
  unfold initial_page, callbacks. simpl. unfold fire. simpl.
  split_and!; reflexivity.
Qed.

Lemma populated_iff (page : gmap string Rendering) (node : string) :
  node_state argsort df page node = Populated
  ↔ page !! node ≠ initial_page argsort df !! node.
Proof. unfold node_state. case_decide; naive_solver. Qed.

(** What a click makes a callback return is never its placeholder. *)
Lemma click_not_placeholder (cb : Callback) (cd : ClickData) (r : Rendering) :
  cb ∈ callbacks argsort df →
  cb_fun cb (Some cd) = Ok r →
  initial_page argsort df !! cb_output cb ≠ Some r.
Proof.
  destruct initial_page_lookup as (I1 & I2 & I3).
  unfold callbacks. rewrite !elem_of_cons, elem_of_nil.
  intros [->|[->|[->|[]]]]; simpl;
    [rewrite I1|rewrite I2|rewrite I3]; intros Hr [= <-]; revert Hr;
    unfold display_breach_details, update_top_breaches_for_year,
      display_yearly_breach_details;
    destruct (point0 cd) as [p|]; simpl; try done;
    try (destruct (iloc0 _) as [b|]; simpl; try done;
         destruct (breach_text b) as [text|] eqn:Ht; simpl; try done;
         intros [= ->]; apply breach_text_not_prompt in Ht as [? ?]; done).
Qed.

Lemma fire_cases (cd : option ClickData) (cbs : list Callback)
    (page : gmap string Rendering) (node : string) :
  foldl (fire cd) page cbs !! node = page !! node ∨
  ∃ cb r, cb ∈ cbs ∧ cb_output cb = node ∧ cb_fun cb cd = Ok r ∧
          foldl (fire cd) page cbs !! node = Some r.
Proof.
  revert page. induction cbs as [|cb cbs IH]; intros page; [by left|].
  simpl. destruct (IH (fire cd page cb)) as [Hsame|(cb' & r & Hin & Ho & Hf & Hl)].
  - rewrite Hsame. unfold fire. destruct (cb_fun cb cd) as [r|] eqn:Hf; [|by left].
    destruct (decide (cb_output cb = node)) as [Heq|Hne].
    + right. exists cb, r. rewrite <- Heq at 2. rewrite lookup_insert_eq.
      repeat split; [left|done..].
    + left. by rewrite lookup_insert_ne.
  - right. exists cb', r. repeat split; [by right|done..].
Qed.

Lemma dispatch_cases (page : gmap string Rendering) (ev : SelectionEvent)
    (node : string) :
  dispatch argsort df page ev !! node = page !! node ∨
  ∃ cb r, cb ∈ callbacks argsort df ∧ cb_output cb = node ∧
          cb_fun cb (Some (ev_click ev)) = Ok r ∧
          dispatch argsort df page ev !! node = Some r.
Proof.
  unfold dispatch.
  destruct (fire_cases (Some (ev_click ev))
    (filter (λ cb, cb_input cb = ev_source ev) (callbacks argsort df)) page node)
    as [H|(cb & r & Hin & Ho & Hf & Hl)]; [by left|].
  right. exists cb, r. apply list_elem_of_filter in Hin as [_ Hin]. done.
Qed.

Lemma dispatch_populated (page : gmap string Rendering) (ev : SelectionEvent)
    (node : string) :
  node_state argsort df page node = Populated →
  node_state argsort df (dispatch argsort df page ev) node = Populated.
Proof.
  rewrite !populated_iff. intros Hpop.
  destruct (dispatch_cases page ev node) as [->|(cb & r & Hin & <- & Hf & ->)];
    [done|].
  intros Heq. by eapply click_not_placeholder.
Qed.

Lemma dispatch_success (page : gmap string Rendering) (ev : SelectionEvent)
    (cb : Callback) (r : Rendering) :
  cb ∈ callbacks argsort df →
  cb_input cb = ev_source ev →
  cb_fun cb (Some (ev_click ev)) = Ok r →
  dispatch argsort df page ev !! cb_output cb = Some r.
Proof.
  destruct ev as [source cd]. unfold callbacks.
  rewrite !elem_of_cons, elem_of_nil.
  intros [->|[->|[->|[]]]];
    cbn [cb_input cb_fun cb_output ev_source ev_click]; intros <- Hr;
    unfold dispatch, callbacks; simpl; unfold fire, cb_fun, cb_output;
    rewrite Hr; by rewrite lookup_insert_eq.
Qed.
End PageStates.

Section Events.
Context (argsort : list Z → list nat) (df : list Row).

Lemma fire_comm (cd1 cd2 : option ClickData) (page : gmap string Rendering)
    (cb1 cb2 : Callback) :
  cb_output cb1 ≠ cb_output cb2 →
  fire cd2 (fire cd1 page cb1) cb2 = fire cd1 (fire cd2 page cb2) cb1.
Proof.
  intros Hne. unfold fire.
  destruct (cb_fun cb1 cd1), (cb_fun cb2 cd2); try done.
  by apply insert_insert_ne.
Qed.

(** A component has no callback bound to it, or one. *)
Lemma dispatch_bound (source : string) :
  (∀ page ev, ev_source ev = source → dispatch argsort df page ev = page) ∨
  ∃ cb, cb ∈ callbacks argsort df ∧ cb_input cb = source ∧
    ∀ page ev, ev_source ev = source →
      dispatch argsort df page ev = fire (Some (ev_click ev)) page cb.
Proof.
  destruct (decide (source = "top-breaches-chart")) as [->|H1].
  { right. eexists. split; [left|]. split; [done|].
    intros page [s cd] Hs. simpl in Hs. subst s. reflexivity. }
  destruct (decide (source = "breaches-over-time-chart")) as [->|H2].
  { right. eexists. split; [right; left|]. split; [done|].
    intros page [s cd] Hs. simpl in Hs. subst s. reflexivity. }
  destruct (decide (source = "top-breaches-year-chart")) as [->|H3].
  { right. eexists. split; [right; right; left|]. split; [done|].
    intros page [s cd] Hs. simpl in Hs. subst s. reflexivity. }
  left. intros page [s cd] Hs. simpl in Hs. subst s. unfold dispatch, callbacks.
  rewrite !filter_cons_False, filter_nil by (simpl; congruence). done.
Qed.

Lemma callbacks_outputs (cb1 cb2 : Callback) :
  cb1 ∈ callbacks argsort df → cb2 ∈ callbacks argsort df →
  cb_input cb1 ≠ cb_input cb2 → cb_output cb1 ≠ cb_output cb2.
Proof.
  unfold callbacks. rewrite !elem_of_cons, !elem_of_nil.
  intros [->|[->|[->|[]]]] [->|[->|[->|[]]]]; simpl; done.
Qed.

Lemma callbacks_output_inj (cb1 cb2 : Callback) :
  cb1 ∈ callbacks argsort df → cb2 ∈ callbacks argsort df →
  cb_output cb1 = cb_output cb2 → cb1 = cb2.
Proof.
  unfold callbacks. rewrite !elem_of_cons, !elem_of_nil.
  intros [->|[->|[->|[]]]] [->|[->|[->|[]]]]; simpl; done.
Qed.

Lemma callbacks_input_inj (cb1 cb2 : Callback) :
  cb1 ∈ callbacks argsort df → cb2 ∈ callbacks argsort df →
  cb_input cb1 = cb_input cb2 → cb1 = cb2.
Proof.
  unfold callbacks. rewrite !elem_of_cons, !elem_of_nil.
  intros [->|[->|[->|[]]]] [->|[->|[->|[]]]]; simpl; done.
Qed.

(** An event runs the callback bound to its component, and no other. *)
Lemma dispatch_fire (page : gmap string Rendering) (ev : SelectionEvent)
    (cb : Callback) :
  cb ∈ callbacks argsort df → cb_input cb = ev_source ev →
  dispatch argsort df page ev = fire (Some (ev_click ev)) page cb.
Proof.
  destruct ev as [source cd]. unfold callbacks.
  rewrite !elem_of_cons, elem_of_nil.
  intros [->|[->|[->|[]]]]; cbn [cb_input ev_source]; intros <-; reflexivity.
Qed.

(** What an event leaves in the output of a callback. *)
Lemma dispatch_output (page : gmap string Rendering) (ev : SelectionEvent)
    (cb : Callback) :
  cb ∈ callbacks argsort df →
  dispatch argsort df page ev !! cb_output cb
  = if decide (cb_input cb = ev_source ev) then
      match cb_fun cb (Some (ev_click ev)) with
      | Ok rendering => Some rendering
      | Raise _ => page !! cb_output cb
      end
    else page !! cb_output cb.
Proof.
  intros Hin. case_decide as Hinput.
  - rewrite (dispatch_fire page ev cb) by done. unfold fire.
    destruct (cb_fun cb (Some (ev_click ev))); [|done]. by rewrite lookup_insert_eq.
  - destruct (dispatch_bound (ev_source ev)) as [Hnone|(cb' & Hin' & Hinput' & Hcb)].
    + by rewrite Hnone.
    + rewrite (Hcb page ev eq_refl). unfold fire.
      destruct (cb_fun cb' (Some (ev_click ev))); [|done].
      rewrite lookup_insert_ne; [done|].
      apply callbacks_outputs; [done..|congruence].
Qed.
End Events.

(** ** Year and breach date *)

(** C6. Every row of the loaded frame takes its [BreachDate] from
    [to_datetime] on the raw text (NaT where that text does not parse);
    its [Year] is NaN exactly when its [BreachDate] is NaT, and is the
    calendar year of [BreachDate] otherwise. *)
Theorem year_null_iff_breach_date_null (to_datetime : string → option Timestamp)
    (strip_markup : string → string) (data : list RawBreach) (r : Row) :
  r ∈ prepare to_datetime strip_markup data →
  (∃ raw, raw ∈ data ∧ BreachDate r = to_datetime (raw_BreachDate raw)) ∧
  (Year r = None ↔ BreachDate r = None) ∧
  (∀ d, BreachDate r = Some d → Year r = Some (ts_year d)).
Proof.
  unfold prepare. intros Hin.
  apply list_elem_of_fmap in Hin as (raw & -> & Hraw).
  split; [by exists raw|]. unfold prepare_row, dt_year. simpl.
  destruct (to_datetime (raw_BreachDate raw)) as [d|]; simpl.
  - split; [done|]. by intros d' [= ->].
  - done.
Qed.

Lemma year_null_iff_breach_date_null_witness :
  let r := prepare_row iso_date id
             {| raw_Title := "Collection"; raw_BreachDate := "unknown";
                raw_AddedDate := "2019-01-16"; raw_PwnCount := 772904991;
                raw_DataClasses := ["Email addresses"; "Passwords"];
                raw_IsVerified := Some false; raw_Description := "A collection" |} in
  (∃ raw, raw ∈ sample_raw ∧ BreachDate r = iso_date (raw_BreachDate raw)) ∧
  (Year r = None ↔ BreachDate r = None) ∧
  (∀ d, BreachDate r = Some d → Year r = Some (ts_year d)).
Proof.
  intros r. apply (year_null_iff_breach_date_null iso_date id sample_raw r).
  apply (list_elem_of_lookup_2 _ 1%nat). reflexivity.
Defined.

(** ** First match *)

(** C9, as the code has it. When several rows carry the clicked title,
    both detail callbacks return what [breach_text] makes of the first of
    them in the order of the frame: its text when its date is NaT or a
    date [datetime.date] accepts, [NotImplementedError] otherwise.  No
    later row with the title is looked at. *)
Theorem title_lookup_first_match (df : list Row) (title : string) :
  (1 < length (rows_with_title df title))%nat →
  ∃ before breach after,
    df = before ++ breach :: after ∧ BreachTitle breach = title ∧
    Forall (λ r, BreachTitle r ≠ title) before ∧
    (∀ clickData point rest,
       points clickData = point :: rest → pt_y point = title →
       display_breach_details df (Some clickData) = breach_text breach ∧
       display_yearly_breach_details df (Some clickData) = breach_text breach) ∧
    (BreachDate breach = None → ∃ text, breach_text breach = Ok text) ∧
    (∀ t, BreachDate breach = Some t → valid_date t →
          ∃ text, breach_text breach = Ok text) ∧
    (∀ t, BreachDate breach = Some t → ¬ valid_date t →
          breach_text breach = Raise NotImplementedError).
Proof.
  intros Hlen.
  destruct (decide (title ∈ BreachTitle <$> df)) as [Hin|Hnot].
  - destruct (rows_with_title_first df title Hin)
      as (before & breach & after & Hdf & Ht & Hb & Hi).
    destruct (breach_text_cases breach) as (_ & Hvalid & Hinvalid & Hnat).
    exists before, breach, after. split_and!; try done.
    intros clickData point rest Hp <-. by eapply display_details_found.
  - rewrite rows_with_title_none in Hlen by done. simpl in Hlen. lia.
Qed.

Lemma title_lookup_first_match_witness :
  ∃ before breach after,
    sample_df = before ++ breach :: after ∧ BreachTitle breach = "Adobe" ∧
    Forall (λ r, BreachTitle r ≠ "Adobe") before ∧
    (∀ clickData point rest,
       points clickData = point :: rest → pt_y point = "Adobe" →
       display_breach_details sample_df (Some clickData) = breach_text breach ∧
       display_yearly_breach_details sample_df (Some clickData)
         = breach_text breach) ∧
    (BreachDate breach = None → ∃ text, breach_text breach = Ok text) ∧
    (∀ t, BreachDate breach = Some t → valid_date t →
          ∃ text, breach_text breach = Ok text) ∧
    (∀ t, BreachDate breach = Some t → ¬ valid_date t →
          breach_text breach = Raise NotImplementedError).
Proof.
  apply (title_lookup_first_match sample_df "Adobe"). vm_compute. lia.
Defined.

(** C9, as the specification has it, fails: in [df_year_zero] two rows are
    titled Ancient and the first is dated in the year 0; its date cannot
    be made a [datetime.date], so both callbacks raise and the panels
    render no row, neither the first nor the second. *)
Lemma first_match_not_always_rendered :
  BreachTitle <$> rows_with_title df_year_zero "Ancient" = ["Ancient"; "Ancient"] ∧
  (ts_year <$> BreachDate (dated_row "Ancient" 100 0)) = Some 0 ∧
  display_breach_details df_year_zero (Some (click 100 "Ancient"))
    = Raise NotImplementedError ∧
  display_yearly_breach_details df_year_zero (Some (click 100 "Ancient"))
    = Raise NotImplementedError.
Proof. split_and!; reflexivity. Qed.

(** ** A title that no row carries *)

(** C1, as the code has it. A click whose title matches no row makes both
    detail callbacks raise [IndexError] at [iloc[0]]; they return no
    prompt, and the page stays exactly as it was. *)
Theorem unknown_title_raises (argsort : list Z → list nat) (df : list Row)
    (clickData : ClickData) (point : Point) (rest : list Point) :
  points clickData = point :: rest →
  pt_y point ∉ BreachTitle <$> df →
  display_breach_details df (Some clickData) = Raise IndexError ∧
  display_yearly_breach_details df (Some clickData) = Raise IndexError ∧
  ∀ page source,
    source ∈ ["top-breaches-chart"; "top-breaches-year-chart"] →
    dispatch argsort df page {| ev_source := source; ev_click := clickData |} = page.
Proof.
  intros Hp Hnot.
  destruct (display_details_missing df clickData point rest Hp Hnot) as [H1 H2].
  repeat split; try done. intros page source Hsrc.
  by apply dispatch_details_raise.
Qed.

Lemma unknown_title_raises_witness :
  display_breach_details sample_df (Some (click 0 "LinkedIn")) = Raise IndexError ∧
  display_yearly_breach_details sample_df (Some (click 0 "LinkedIn"))
    = Raise IndexError ∧
  ∀ page source,
    source ∈ ["top-breaches-chart"; "top-breaches-year-chart"] →
    dispatch npysort.argsort sample_df page
      {| ev_source := source; ev_click := click 0 "LinkedIn" |} = page.
Proof.
  apply (unknown_title_raises npysort.argsort sample_df (click 0 "LinkedIn")
           {| pt_x := 0; pt_y := "LinkedIn" |} []); [reflexivity|].
  apply (bool_decide_unpack _). vm_compute. exact I.
Defined.

(** C1, as the specification has it, fails: on the sample store a click on
    a title that is not there returns no prompt, and a panel that showed a
    record goes on showing it. *)
Lemma unknown_title_no_fallback_prompt :
  let page := dispatch npysort.argsort sample_df
                (initial_page npysort.argsort sample_df)
                {| ev_source := "top-breaches-chart"; ev_click := click 0 "Collection" |} in
  let page' := dispatch npysort.argsort sample_df page
                {| ev_source := "top-breaches-chart"; ev_click := click 0 "LinkedIn" |} in
  ("LinkedIn" ∉ BreachTitle <$> sample_df) ∧
  display_breach_details sample_df (Some (click 0 "LinkedIn"))
    ≠ Ok breach_details_prompt ∧
  page' !! "breach-details" ≠ Some (Children breach_details_prompt) ∧
  page' !! "breach-details" = page !! "breach-details".
Proof.
  split_and!.
  - apply (bool_decide_unpack _). vm_compute. exact I.
  - discriminate.
  - vm_compute. discriminate.
  - reflexivity.
Qed.

(** ** A row without a date *)

(** C10, as the code has it. With a click on a title, both detail
    callbacks raise [IndexError] when no row has the title, and otherwise
    return what [breach_text] makes of the first row that has it: a text
    when the date of that row is NaT, printed as [NaT], or a date
    [datetime.date] accepts (year 1 to 9999), and [NotImplementedError]
    when it is any other date.  A NaT date does not raise; a date that is
    not NaT can. *)
Theorem details_defined_by_date (df : list Row) (clickData : ClickData)
    (point : Point) (rest : list Point) :
  points clickData = point :: rest →
  (pt_y point ∉ BreachTitle <$> df →
   display_breach_details df (Some clickData) = Raise IndexError ∧
   display_yearly_breach_details df (Some clickData) = Raise IndexError) ∧
  (pt_y point ∈ BreachTitle <$> df →
   ∃ before breach after,
     df = before ++ breach :: after ∧ BreachTitle breach = pt_y point ∧
     Forall (λ r, BreachTitle r ≠ pt_y point) before ∧
     display_breach_details df (Some clickData) = breach_text breach ∧
     display_yearly_breach_details df (Some clickData) = breach_text breach ∧
     (BreachDate breach = None →
      date_str (BreachDate breach) = Ok "NaT" ∧ ∃ text, breach_text breach = Ok text) ∧
     (∀ t, BreachDate breach = Some t → valid_date t →
           ∃ text, breach_text breach = Ok text) ∧
     (∀ t, BreachDate breach = Some t → ¬ valid_date t →
           breach_text breach = Raise NotImplementedError)).
Proof.
  intros Hp. split.
  - intros Hnot. by eapply display_details_missing.
  - intros Hin.
    destruct (rows_with_title_first df _ Hin)
      as (before & breach & after & Hdf & Ht & Hb & Hi).
    exists before, breach, after.
    destruct (display_details_found df clickData point rest breach Hp Hi) as [H1 H2].
    destruct (breach_text_cases breach) as (Hnat & Hvalid & Hinvalid & Hnat').
    split_and!; try done. intros Hnone. split; auto.
Qed.

Lemma details_defined_by_date_witness :
  ("Collection" ∉ BreachTitle <$> sample_df →
   display_breach_details sample_df (Some (click 1 "Collection")) = Raise IndexError ∧
   display_yearly_breach_details sample_df (Some (click 1 "Collection"))
     = Raise IndexError) ∧
  ("Collection" ∈ BreachTitle <$> sample_df →
   ∃ before breach after,
     sample_df = before ++ breach :: after ∧ BreachTitle breach = "Collection" ∧
     Forall (λ r, BreachTitle r ≠ "Collection") before ∧
     display_breach_details sample_df (Some (click 1 "Collection"))
       = breach_text breach ∧
     display_yearly_breach_details sample_df (Some (click 1 "Collection"))
       = breach_text breach ∧
     (BreachDate breach = None →
      date_str (BreachDate breach) = Ok "NaT" ∧ ∃ text, breach_text breach = Ok text) ∧
     (∀ t, BreachDate breach = Some t → valid_date t →
           ∃ text, breach_text breach = Ok text) ∧
     (∀ t, BreachDate breach = Some t → ¬ valid_date t →
           breach_text breach = Raise NotImplementedError)).
Proof.
  apply (details_defined_by_date sample_df (click 1 "Collection")
           {| pt_x := 1; pt_y := "Collection" |} []).
  reflexivity.
Defined.

(** C10, as the specification has it, fails both ways.  The row titled
    Collection of the sample store has no date, and both callbacks render
    it, with [NaT] for the date.  The first row titled Ancient of
    [df_year_zero] has a date, of the year 0, and both callbacks raise
    on it. *)
Lemma null_date_is_rendered :
  BreachDate <$> rows_with_title sample_df "Collection" = [None] ∧
  display_breach_details sample_df (Some (click 1 "Collection"))
  = Ok ("Breach: Collection" +:+ nl +:+ "Breach Date: NaT" +:+ nl +:+
        "Accounts Affected: 772,904,991" +:+ nl +:+ nl +:+
        "Description:" +:+ nl +:+ "A collection") ∧
  display_yearly_breach_details sample_df (Some (click 1 "Collection"))
  = display_breach_details sample_df (Some (click 1 "Collection")) ∧
  BreachDate <$> rows_with_title df_year_zero "Ancient"
  = [Some {| ts_year := 0; ts_month := 1; ts_day := 1 |};
     Some {| ts_year := 2019; ts_month := 1; ts_day := 1 |}] ∧
  display_breach_details df_year_zero (Some (click 100 "Ancient"))
  = Raise NotImplementedError ∧
  display_yearly_breach_details df_year_zero (Some (click 100 "Ancient"))
  = Raise NotImplementedError.
Proof. split_and!; reflexivity. Qed.

(** ** Independent branches *)

Lemma run_frame (argsort : list Z → list nat) (df : list Row)
    (evs : list SelectionEvent) (page : gmap string Rendering) (node : string) :
  Forall (λ ev, node ∉ dependents argsort df (ev_source ev)) evs →
  run argsort df page evs !! node = page !! node.
Proof.
  unfold run. revert page.
  induction evs as [|ev evs IH]; intros page Hall; [done|].
  apply Forall_cons in Hall as [Hev Hall]. simpl. rewrite IH by done.
  apply dispatch_frame_direct. intros Hin. by apply Hev, direct_in_dependents.
Qed.

(** C2. An event at a component changes nothing outside the transitive
    dependents of that component.  The overall ranking chart has the first
    detail panel as its only dependent, so clicks on it, however many,
    leave the year chart and the year-scoped detail panel as they were. *)
Theorem independent_branches_untouched (argsort : list Z → list nat)
    (df : list Row) :
  (∀ page ev node,
     node ∉ dependents argsort df (ev_source ev) →
     dispatch argsort df page ev !! node = page !! node) ∧
  dependents argsort df "top-breaches-chart" = ["breach-details"] ∧
  dependents argsort df "breaches-over-time-chart"
    = ["top-breaches-year-chart"; "yearly-breach-details"] ∧
  dependents argsort df "top-breaches-year-chart" = ["yearly-breach-details"] ∧
  (∀ page evs,
     Forall (λ ev, ev_source ev = "top-breaches-chart") evs →
     run argsort df page evs !! "top-breaches-year-chart"
       = page !! "top-breaches-year-chart" ∧
     run argsort df page evs !! "yearly-breach-details"
       = page !! "yearly-breach-details").
Proof.
  split_and!; try reflexivity.
  - intros page ev node Hnot. apply dispatch_frame_direct.
    intros Hin. by apply Hnot, direct_in_dependents.
  - intros page evs Hall.
    split; apply run_frame; eapply Forall_impl; try exact Hall;
      intros ev ->; apply (bool_decide_unpack _); vm_compute; exact I.
Qed.

Lemma independent_branches_untouched_witness :
  let page := run npysort.argsort sample_df (initial_page npysort.argsort sample_df)
                [ {| ev_source := "breaches-over-time-chart"; ev_click := click 2013 "1" |};
                  {| ev_source := "top-breaches-year-chart"; ev_click := click 1 "Adobe" |} ] in
  let evs := [ {| ev_source := "top-breaches-chart"; ev_click := click 1 "Collection" |};
               {| ev_source := "top-breaches-chart"; ev_click := click 1 "LinkedIn" |} ] in
  run npysort.argsort sample_df page evs !! "top-breaches-year-chart"
    = page !! "top-breaches-year-chart" ∧
  run npysort.argsort sample_df page evs !! "yearly-breach-details"
    = page !! "yearly-breach-details".
Proof.
  intros page evs.
  apply (independent_branches_untouched npysort.argsort sample_df).
  repeat constructor.
Defined.

(** ** Empty and populated nodes *)

Lemma run_populated (argsort : list Z → list nat) (df : list Row)
    (evs : list SelectionEvent) (page : gmap string Rendering) (node : string) :
  node_state argsort df page node = Populated →
  node_state argsort df (run argsort df page evs) node = Populated.
Proof.
  unfold run. revert page.
  induction evs as [|ev evs IH]; intros page Hpop; [done|].
  simpl. by apply IH, dispatch_populated.
Qed.

Lemma run_snoc (argsort : list Z → list nat) (df : list Row)
    (page : gmap string Rendering) (evs : list SelectionEvent) (ev : SelectionEvent) :
  run argsort df page (evs ++ [ev])
  = dispatch argsort df (run argsort df page evs) ev.
Proof. unfold run. by rewrite foldl_snoc. Qed.

(** A node is [Populated] after a run from the page as loaded exactly
    when one of the events made the callback that writes it return. *)
Lemma run_populated_iff (argsort : list Z → list nat) (df : list Row)
    (evs : list SelectionEvent) (cb : Callback) :
  cb ∈ callbacks argsort df →
  node_state argsort df (run argsort df (initial_page argsort df) evs) (cb_output cb)
    = Populated
  ↔ ∃ ev rendering, ev ∈ evs ∧ cb_input cb = ev_source ev ∧
      cb_fun cb (Some (ev_click ev)) = Ok rendering.
Proof.
  intros Hin. induction evs as [|ev evs IH] using rev_ind.
  - rewrite populated_iff. split; [done|].
    intros (ev & r & Hev & _). by apply elem_of_nil in Hev.
  - rewrite run_snoc, populated_iff, (dispatch_output argsort df _ ev cb Hin).
    rewrite populated_iff in IH.
    destruct (decide (cb_input cb = ev_source ev)) as [Hinput|Hinput];
      [destruct (cb_fun cb (Some (ev_click ev))) as [r|e] eqn:Hr|].
    + split.
      * intros _. exists ev, r. split_and!; try done.
        apply elem_of_app. right. left.
      * intros _ Heq. by eapply click_not_placeholder.
    + rewrite IH. split; intros (ev' & r & Hev & Hi & Hf); exists ev', r.
      * split_and!; try done. apply elem_of_app. by left.
      * split_and!; try done. apply elem_of_app in Hev as [Hev|Hev]; [done|].
        apply list_elem_of_singleton in Hev as ->. congruence.
    + rewrite IH. split; intros (ev' & r & Hev & Hi & Hf); exists ev', r.
      * split_and!; try done. apply elem_of_app. by left.
      * split_and!; try done. apply elem_of_app in Hev as [Hev|Hev]; [done|].
        apply list_elem_of_singleton in Hev as ->. congruence.
Qed.

(** C5, as the code has it.  After load the three dependent nodes show
    their placeholders.  An event runs the callback bound to its
    component: when the callback returns, its output node shows what it
    returned and is [Populated], whatever it was before; when the
    callback raises, the page stays as it is, so an [Empty] node stays
    [Empty].  A [Populated] node is [Populated] after any further events.
    After a run from the page as loaded, a node is [Populated] exactly
    when one of the events made its callback return. *)
Theorem node_state_transitions (argsort : list Z → list nat) (df : list Row) :
  (initial_page argsort df !! "breach-details"
     = Some (Children breach_details_prompt) ∧
   initial_page argsort df !! "top-breaches-year-chart"
     = Some (FigureOf year_chart_prompt) ∧
   initial_page argsort df !! "yearly-breach-details"
     = Some (Children yearly_breach_details_prompt)) ∧
  (∀ page ev cb,
     cb ∈ callbacks argsort df →
     cb_input cb = ev_source ev →
     match cb_fun cb (Some (ev_click ev)) with
     | Ok rendering =>
         dispatch argsort df page ev !! cb_output cb = Some rendering ∧
         node_state argsort df (dispatch argsort df page ev) (cb_output cb)
           = Populated
     | Raise _ => dispatch argsort df page ev = page
     end) ∧
  (∀ evs cb,
     cb ∈ callbacks argsort df →
     node_state argsort df (run argsort df (initial_page argsort df) evs)
       (cb_output cb) = Populated
     ↔ ∃ ev rendering, ev ∈ evs ∧ cb_input cb = ev_source ev ∧
         cb_fun cb (Some (ev_click ev)) = Ok rendering) ∧
  (∀ page evs node,
     node_state argsort df page node = Populated →
     node_state argsort df (run argsort df page evs) node = Populated).
Proof.
  split_and!.
  - apply initial_page_lookup.
  - apply initial_page_lookup.
  - apply initial_page_lookup.
  - intros page ev cb Hin Hinput.
    rewrite (dispatch_fire argsort df page ev cb Hin Hinput).
    pose proof (dispatch_success argsort df page ev cb) as Hs.
    rewrite (dispatch_fire argsort df page ev cb Hin Hinput) in Hs.
    unfold fire in *.
    destruct (cb_fun cb (Some (ev_click ev))) as [r|e] eqn:Hr; [|done].
    split; [by apply Hs|]. apply populated_iff. rewrite lookup_insert_eq.
    intros Heq. by eapply click_not_placeholder.
  - intros evs cb. apply run_populated_iff.
  - intros page evs node. apply run_populated.
Qed.

Lemma node_state_transitions_witness :
  let page := dispatch npysort.argsort sample_df
                (initial_page npysort.argsort sample_df)
                {| ev_source := "top-breaches-chart"; ev_click := click 1 "Adobe" |} in
  let evs := [ {| ev_source := "top-breaches-chart"; ev_click := click 1 "LinkedIn" |};
               {| ev_source := "breaches-over-time-chart"; ev_click := click 2019 "2" |};
               {| ev_source := "top-breaches-chart"; ev_click := click 1 "Collection" |} ] in
  node_state npysort.argsort sample_df
    (run npysort.argsort sample_df page evs) "breach-details" = Populated.
Proof.
  intros page evs.
  apply (node_state_transitions npysort.argsort sample_df).
  vm_compute. reflexivity.
Defined.

(** C5, as the specification has it, fails: not every event ends in
    [Populated].  A click at the overall ranking chart on a title that no
    row carries makes the callback raise [IndexError], and a click on
    [Ancient], whose first row is dated in the year 0, makes it raise
    [NotImplementedError]; the detail panel, a dependent of the chart, is
    [Empty] before the event and [Empty] after it. *)
Lemma raising_click_leaves_node_empty :
  "breach-details" ∈ dependents npysort.argsort sample_df "top-breaches-chart" ∧
  (let page := initial_page npysort.argsort sample_df in
   let ev := {| ev_source := "top-breaches-chart"; ev_click := click 1 "Nobody" |} in
   display_breach_details sample_df (Some (ev_click ev)) = Raise IndexError ∧
   node_state npysort.argsort sample_df page "breach-details" = Empty ∧
   node_state npysort.argsort sample_df
     (dispatch npysort.argsort sample_df page ev) "breach-details" = Empty) ∧
  (let page := initial_page npysort.argsort df_year_zero in
   let ev := {| ev_source := "top-breaches-chart"; ev_click := click 100 "Ancient" |} in
   display_breach_details df_year_zero (Some (ev_click ev))
     = Raise NotImplementedError ∧
   node_state npysort.argsort df_year_zero page "breach-details" = Empty ∧
   node_state npysort.argsort df_year_zero
     (dispatch npysort.argsort df_year_zero page ev) "breach-details" = Empty).
Proof.
  split; [apply (bool_decide_unpack _); vm_compute; exact I|].
  split; cbv zeta; split_and!; vm_compute; reflexivity.
Qed.

(** ** Counters *)

Section Counters.
Context `{EqDecision K}.
Implicit Types (l : list K) (m : list (K * nat)) (c e : K).

Lemma occurrences_snoc l e c :
  occurrences c (l ++ [e])
  = (occurrences c l + if decide (e = c) then 1 else 0)%nat.
Proof.
  unfold occurrences. rewrite filter_app, length_app. f_equal.
  case_decide.
  - by rewrite filter_cons_True.
  - by rewrite filter_cons_False.
Qed.

Lemma occurrences_absent l c : c ∉ l → occurrences c l = 0%nat.
Proof.
  unfold occurrences. induction l as [|x l IH]; intros Hnot; [done|].
  apply not_elem_of_cons in Hnot as [Hne Hnot].
  rewrite filter_cons_False by congruence. auto.
Qed.

Lemma occurrences_present l c : c ∈ l → (0 < occurrences c l)%nat.
Proof.
  unfold occurrences. intros Hin.
  assert (c ∈ filter (λ x, x = c) l) as Hf by (by apply list_elem_of_filter).
  destruct (filter _ l); [by apply elem_of_nil in Hf|simpl; lia].
Qed.

Lemma distinct_snoc l e :
  distinct (l ++ [e])
  = if decide (e ∈ distinct l) then distinct l else distinct l ++ [e].
Proof. unfold distinct. by rewrite foldl_snoc. Qed.

Lemma elem_of_distinct l c : c ∈ distinct l ↔ c ∈ l.
Proof.
  revert c. induction l as [|e l IH] using rev_ind; intros c; [done|].
  rewrite distinct_snoc, elem_of_app, list_elem_of_singleton.
  case_decide as He.
  - rewrite IH. apply IH in He. split; [by left|by intros [?| ->]].
  - rewrite elem_of_app, list_elem_of_singleton, IH. done.
Qed.

Lemma NoDup_distinct l : NoDup (distinct l).
Proof.
  induction l as [|e l IH] using rev_ind; [constructor|].
  rewrite distinct_snoc. case_decide; [done|].
  apply NoDup_app. split_and!; [done| |apply NoDup_singleton].
  intros x Hx Hx'. apply list_elem_of_singleton in Hx' as ->. done.
Qed.

Lemma seen_before_snoc l e c1 c2 :
  seen_before l c1 c2 → seen_before (l ++ [e]) c1 c2.
Proof.
  intros (Hne & l1 & l2 & -> & H1 & H2). split; [done|].
  exists l1, (l2 ++ [e]). by rewrite <- app_assoc.
Qed.

(** The order of [distinct] is the order of first occurrence. *)
Lemma distinct_order l (i j : nat) c1 c2 :
  (i < j)%nat → distinct l !! i = Some c1 → distinct l !! j = Some c2 →
  seen_before l c1 c2.
Proof.
  revert i j c1 c2. induction l as [|e l IH] using rev_ind;
    intros i j c1 c2 Hij H1 H2; [done|].
  rewrite distinct_snoc in H1, H2. case_decide as He.
  { apply seen_before_snoc. eauto. }
  destruct (decide (j < length (distinct l))%nat) as [Hj|Hj].
  { rewrite lookup_app_l in H1, H2 by lia. apply seen_before_snoc. eauto. }
  rewrite lookup_app_r in H2 by lia.
  assert (c2 = e) as ->.
  { destruct (j - length (distinct l))%nat as [|n]; simpl in H2; [congruence|].
    by destruct n. }
  assert (i < length (distinct l))%nat as Hi.
  { apply lookup_lt_Some in H2. simpl in H2. lia. }
  rewrite lookup_app_l in H1 by done.
  assert (c1 ∈ l) as Hin.
  { apply elem_of_distinct. by eapply list_elem_of_lookup_2. }
  rewrite elem_of_distinct in He.
  destruct (list_elem_of_split_l l c1 Hin) as (l1 & l2 & -> & Hl1).
  split; [by intros ->|].
  exists l1, (l2 ++ [e]). rewrite <- app_assoc. split_and!; [done..|].
  intros Hel1. apply He. apply elem_of_app. by left.
Qed.

Lemma count_element_total e m :
  total_count (count_element e m) = S (total_count m).
Proof.
  unfold total_count. induction m as [|[k n] m IH]; [done|].
  simpl. case_decide; simpl; [done|]. rewrite IH. lia.
Qed.

Lemma count_element_absent (g : K → nat) e (ks : list K) :
  e ∉ ks →
  count_element e ((λ c, (c, g c)) <$> ks)
  = ((λ c, (c, g c)) <$> ks) ++ [(e, 1%nat)].
Proof.
  induction ks as [|k ks IH]; intros Hnot; [done|].
  apply not_elem_of_cons in Hnot as [Hne Hnot].
  rewrite fmap_cons. cbn [count_element].
  rewrite decide_False by congruence. by rewrite IH.
Qed.

Lemma count_element_present (g : K → nat) e (ks : list K) :
  NoDup ks → e ∈ ks →
  count_element e ((λ c, (c, g c)) <$> ks)
  = (λ c, (c, (g c + if decide (e = c) then 1 else 0)%nat)) <$> ks.
Proof.
  induction ks as [|k ks IH]; intros Hnd Hin; [by apply elem_of_nil in Hin|].
  apply NoDup_cons in Hnd as [Hk Hnd]. rewrite !fmap_cons. cbn [count_element].
  destruct (decide (k = e)) as [->|Hne].
  - rewrite decide_True by done. f_equal; [f_equal; lia|].
    apply list_fmap_ext. intros i c Hc.
    rewrite decide_False; [f_equal; lia|].
    intros ->. apply Hk. by eapply list_elem_of_lookup_2.
  - apply elem_of_cons in Hin as [->|Hin]; [done|].
    rewrite decide_False by congruence. rewrite IH by done.
    f_equal. f_equal. lia.
Qed.

(** [Counter] in closed form: one entry per distinct element, in the
    order of first occurrence, holding its number of occurrences. *)
Lemma Counter_distinct l :
  Counter l = (λ c, (c, occurrences c l)) <$> distinct l.
Proof.
  induction l as [|e l IH] using rev_ind; [done|].
  unfold Counter in *. rewrite foldl_snoc, IH, distinct_snoc.
  case_decide as He.
  - rewrite count_element_present by (done || apply NoDup_distinct).
    apply list_fmap_ext. intros i c Hc. by rewrite occurrences_snoc.
  - rewrite count_element_absent by done. rewrite fmap_app. simpl.
    rewrite occurrences_snoc, decide_True by done.
    rewrite elem_of_distinct in He. rewrite (occurrences_absent l e) by done.
    f_equal. apply list_fmap_ext. intros i c Hc.
    rewrite occurrences_snoc, decide_False; [f_equal; lia|].
    intros ->. apply He, elem_of_distinct. by eapply list_elem_of_lookup_2.
Qed.

Lemma Counter_total l : total_count (Counter l) = length l.
Proof.
  induction l as [|e l IH] using rev_ind; [done|].
  unfold Counter in *. rewrite foldl_snoc, count_element_total, IH, length_app.
  simpl. lia.
Qed.

Lemma Counter_keys l : (Counter l).*1 = distinct l.
Proof.
  rewrite Counter_distinct, <- list_fmap_compose.
  rewrite <- (list_fmap_id (distinct l)) at 2. by apply list_fmap_ext.
Qed.

Lemma elem_of_Counter l c n :
  (c, n) ∈ Counter l ↔ c ∈ l ∧ n = occurrences c l.
Proof.
  rewrite Counter_distinct, list_elem_of_fmap. split.
  - intros (c' & [= -> ->] & Hin). by rewrite <- elem_of_distinct.
  - intros [Hin ->]. exists c. by rewrite elem_of_distinct.
Qed.

Lemma Counter_order l c1 n1 c2 n2 :
  precedes (Counter l) (c1, n1) (c2, n2) → seen_before l c1 c2.
Proof.
  intros (i & j & Hij & H1 & H2). rewrite Counter_distinct in H1, H2.
  rewrite list_lookup_fmap in H1, H2.
  destruct (distinct l !! i) as [a|] eqn:Ha; [|done].
  destruct (distinct l !! j) as [b|] eqn:Hb; [|done].
  simpl in H1, H2. injection H1 as -> _. injection H2 as -> _.
  by eapply distinct_order.
Qed.
End Counters.

(** ** The stable sort of [most_common] *)

Lemma StronglySorted_mono {A} (R1 R2 : relation A) (l : list A) :
  (∀ a b, R1 a b → R2 a b) → StronglySorted R1 l → StronglySorted R2 l.
Proof.
  intros HR. induction 1 as [|a l Hl IH Ha]; constructor; [done|].
  eapply Forall_impl; [exact Ha|]. intros b. apply HR.
Qed.

Lemma StronglySorted_lookup {A} (R : relation A) (l : list A) (i j : nat) (x y : A) :
  StronglySorted R l → (i < j)%nat → l !! i = Some x → l !! j = Some y → R x y.
Proof.
  intros Hl. revert i j. induction Hl as [|a l Hl IH Ha]; intros i j Hij Hi Hj; [done|].
  destruct j as [|j]; [lia|]. destruct i as [|i]; simpl in *.
  - injection Hi as ->. rewrite Forall_forall in Ha.
    apply Ha. by eapply list_elem_of_lookup_2.
  - apply (IH i j); [lia|done..].
Qed.

Lemma StronglySorted_take {A} (R : relation A) (l : list A) (n : nat) :
  StronglySorted R l → StronglySorted R (take n l).
Proof.
  intros Hl. revert n. induction Hl as [|a l Hl IH Ha]; intros [|n]; simpl;
    try constructor; [done|].
  apply Forall_forall. intros b Hb. rewrite Forall_forall in Ha.
  apply Ha. by apply (subseteq_take n l).
Qed.

Section MostCommon.
Context {K : Type}.
Implicit Types (x y : K * nat) (l items : list (K * nat)).

Lemma insert_by_count_perm x l : insert_by_count x l ≡ₚ x :: l.
Proof.
  induction l as [|y l IH]; [done|]. simpl. case_decide; [done|].
  rewrite IH. apply Permutation_swap.
Qed.

Lemma sorted_by_count_reverse_perm l : sorted_by_count_reverse l ≡ₚ l.
Proof.
  induction l as [|x l IH]; [done|]. simpl.
  by rewrite insert_by_count_perm, IH.
Qed.

Lemma precedes_cons x0 l x y : precedes l x y → precedes (x0 :: l) x y.
Proof. intros (i & j & Hij & Hi & Hj). exists (S i), (S j). split_and!; [lia|done..]. Qed.

Lemma precedes_head x0 l y : y ∈ l → precedes (x0 :: l) x0 y.
Proof.
  intros Hin. apply list_elem_of_lookup_1 in Hin as [j Hj].
  exists 0%nat, (S j). split_and!; [lia|done..].
Qed.

Lemma ranked_before_count items x y : ranked_before items x y → (y.2 ≤ x.2)%nat.
Proof. intros [?|[? _]]; lia. Qed.

(** Inserting [x], which stands before every element of [s] in
    [x :: items], keeps the ranking. *)
Lemma insert_by_count_sorted items x s :
  s ⊆ items →
  StronglySorted (ranked_before (x :: items)) s →
  StronglySorted (ranked_before (x :: items)) (insert_by_count x s).
Proof.
  intros Hsub Hs. induction s as [|y s IH]; simpl.
  - repeat constructor.
  - apply StronglySorted_inv in Hs as [Hs Hy].
    assert (y ∈ items) as Hyin by (apply Hsub; left).
    assert (s ⊆ items) as Hsub' by (intros z Hz; apply Hsub; by right).
    case_decide as Hle.
    + constructor; [by constructor|].
      constructor.
      * destruct (decide (y.2 = x.2)) as [Heq|Hne].
        -- right. split; [done|]. by apply precedes_head.
        -- left. lia.
      * apply Forall_forall. intros z Hz.
        rewrite Forall_forall in Hy. specialize (Hy z Hz).
        apply ranked_before_count in Hy.
        destruct (decide (z.2 = x.2)) as [Heq|Hne].
        -- right. split; [done|]. apply precedes_head, Hsub'. done.
        -- left. lia.
    + constructor; [by apply IH|].
      apply Forall_forall. intros z Hz.
      rewrite insert_by_count_perm in Hz.
      apply elem_of_cons in Hz as [->|Hz].
      * left. lia.
      * rewrite Forall_forall in Hy. by apply Hy.
Qed.

Lemma ranked_before_cons x0 items x y :
  ranked_before items x y → ranked_before (x0 :: items) x y.
Proof. intros [?|[? ?]]; [by left|right]. split; [done|]. by apply precedes_cons. Qed.

(** The sort is by count, descending, and stable. *)
Lemma sorted_by_count_reverse_sorted items :
  StronglySorted (ranked_before items) (sorted_by_count_reverse items).
Proof.
  induction items as [|x items IH]; simpl; [constructor|].
  apply insert_by_count_sorted.
  - intros z Hz. by rewrite sorted_by_count_reverse_perm in Hz.
  - eapply StronglySorted_mono; [|exact IH].
    intros a b. apply ranked_before_cons.
Qed.
End MostCommon.

(** ** Category frequency *)

Lemma NoDup_head {A} (n : nat) (l : list A) : NoDup l → NoDup (head n l).
Proof.
  unfold head. intros Hnd. rewrite <- (take_drop n l) in Hnd.
  by apply NoDup_app in Hnd as [Hnd _].
Qed.

Lemma all_classes_concat (df : list Row) :
  all_classes df = concat (DataClasses <$> df).
Proof.
  unfold all_classes. induction df as [|r df IH] using rev_ind; [done|].
  rewrite fmap_app, foldl_app, IH, concat_app. simpl. by rewrite app_nil_r.
Qed.

Lemma all_classes_length (df : list Row) :
  length (all_classes df) = classes_total df.
Proof.
  rewrite all_classes_concat. unfold classes_total.
  induction df as [|r df IH]; [done|].
  rewrite fmap_cons. cbn [concat sum_list_with]. by rewrite length_app, IH.
Qed.

Lemma most_common_total {K} (counter : list (K * nat)) :
  total_count (most_common counter) = total_count counter.
Proof.
  unfold most_common, total_count. by rewrite sorted_by_count_reverse_perm.
Qed.

Lemma total_count_take {K} (counts : list (K * nat)) (k : nat) :
  (total_count (take k counts) ≤ total_count counts)%nat.
Proof.
  unfold total_count. rewrite <- (take_drop k counts) at 2.
  rewrite sum_list_with_app. lia.
Qed.

(** C4, as the code has it. The counts of the whole counter add up to
    Σ |dataClasses|.  [class_counts] keeps the first [k] (20) rows only:
    its counts add up to at most that, and to exactly that when there are
    at most [k] distinct classes. *)
Theorem class_counts_total (df : list Row) :
  total_count (most_common (Counter (all_classes df))) = classes_total df ∧
  ∀ k : nat,
    (total_count (class_counts_head k df) ≤ classes_total df)%nat ∧
    ((length (distinct (all_classes df)) ≤ k)%nat →
     total_count (class_counts_head k df) = classes_total df).
Proof.
  assert (total_count (most_common (Counter (all_classes df))) = classes_total df)
    as Htot by (by rewrite most_common_total, Counter_total, all_classes_length).
  split; [done|]. intros k. unfold class_counts_head, head. split.
  - rewrite <- Htot. apply total_count_take.
  - intros Hk. rewrite take_ge; [done|].
    unfold most_common. rewrite sorted_by_count_reverse_perm.
    by rewrite <- (length_fmap fst), Counter_keys.
Qed.

Lemma class_counts_total_witness :
  total_count (class_counts_head 20 sample_df) = classes_total sample_df.
Proof.
  apply (class_counts_total sample_df). vm_compute. lia.
Defined.

(** C4, as the specification has it, fails: with 21 distinct classes the
    20 counts of [class_counts] add up to 20, not to 21. *)
Lemma class_counts_total_truncated :
  total_count (class_counts df_21_classes) = 20%nat ∧
  classes_total df_21_classes = 21%nat.
Proof. split; vm_compute; reflexivity. Qed.

Lemma occurrences_app `{EqDecision K} (c : K) (l1 l2 : list K) :
  occurrences c (l1 ++ l2) = (occurrences c l1 + occurrences c l2)%nat.
Proof. unfold occurrences. by rewrite filter_app, length_app. Qed.

Lemma all_classes_occurrences_sum (c : string) (df : list Row) :
  occurrences c (all_classes df)
  = sum_list_with (λ r, occurrences c (DataClasses r)) df.
Proof.
  rewrite all_classes_concat. induction df as [|r df IH]; [done|].
  rewrite fmap_cons. cbn [concat sum_list_with]. by rewrite occurrences_app, IH.
Qed.

Lemma elem_of_all_classes (c : string) (df : list Row) :
  c ∈ all_classes df ↔ ∃ r, r ∈ df ∧ c ∈ DataClasses r.
Proof.
  rewrite all_classes_concat. induction df as [|r df IH].
  - split; [by intros ?%elem_of_nil|]. by intros (r & ?%elem_of_nil & _).
  - rewrite fmap_cons. cbn [concat]. rewrite elem_of_app, IH. split.
    + intros [Hc|(r' & Hr & Hc)].
      * exists r. split; [left|done].
      * exists r'. split; [by right|done].
    + intros (r' & [->|Hr]%elem_of_cons & Hc); [by left|].
      right. by exists r'.
Qed.

(** The ranking that [class_counts_head] computes, in terms of the list
    that [all_classes] builds. *)
Lemma class_counts_head_ranked (df : list Row) (k : nat) :
  let classes := all_classes df in
  let out := class_counts_head k df in
  length out = (k `min` length (distinct classes))%nat ∧
  NoDup (out.*1) ∧
  (∀ c n, (c, n) ∈ out → c ∈ classes ∧ n = occurrences c classes) ∧
  (∀ (i j : nat) c1 n1 c2 n2,
     (i < j)%nat → out !! i = Some (c1, n1) → out !! j = Some (c2, n2) →
     (n2 ≤ n1)%nat ∧ (n1 = n2 → seen_before classes c1 c2)) ∧
  (∀ c, c ∈ classes → c ∉ out.*1 →
     length out = k ∧
     ∀ c' n', (c', n') ∈ out →
       (occurrences c classes ≤ n')%nat ∧
       (n' = occurrences c classes → seen_before classes c' c)).
Proof.
  intros classes out.
  set (counter := Counter classes).
  set (sorted := most_common counter).
  assert (sorted ≡ₚ counter) as Hperm by apply sorted_by_count_reverse_perm.
  assert (StronglySorted (ranked_before counter) sorted) as Hsorted
    by apply sorted_by_count_reverse_sorted.
  assert (out = take k sorted) as Hout by done.
  assert (∀ x y, ranked_before counter x y →
            (y.2 ≤ x.2)%nat ∧ (x.2 = y.2 → seen_before classes x.1 y.1)) as Hrank.
  { intros [c1 n1] [c2 n2] Hr. split; [by eapply ranked_before_count|].
    simpl. intros Heq. destruct Hr as [Hlt|[_ Hp]]; [simpl in Hlt; lia|].
    by eapply Counter_order. }
  split_and!.
  - rewrite Hout, length_take, Hperm. unfold counter.
    by rewrite <- (length_fmap fst (Counter classes)), Counter_keys.
  - rewrite Hout, fmap_take. apply (NoDup_head k).
    rewrite Hperm. unfold counter. rewrite Counter_keys. apply NoDup_distinct.
  - intros c n Hin. rewrite Hout in Hin. apply subseteq_take in Hin.
    rewrite Hperm in Hin. by apply elem_of_Counter in Hin.
  - intros i j c1 n1 c2 n2 Hij Hi Hj. rewrite Hout in Hi, Hj.
    apply lookup_take_Some in Hi as [Hi _]. apply lookup_take_Some in Hj as [Hj _].
    apply (Hrank (c1, n1) (c2, n2)). by eapply StronglySorted_lookup.
  - intros c Hc Hnot.
    assert ((c, occurrences c classes) ∈ sorted) as Hin
      by (rewrite Hperm; by apply elem_of_Counter).
    apply list_elem_of_lookup_1 in Hin as [j Hj].
    assert (k ≤ j)%nat as Hkj.
    { destruct (decide (k ≤ j)%nat) as [|Hlt]; [done|]. exfalso. apply Hnot.
      apply list_elem_of_fmap. exists (c, occurrences c classes). split; [done|].
      rewrite Hout. apply elem_of_take. exists j. split; [done|lia]. }
    split.
    + rewrite Hout, length_take. apply lookup_lt_Some in Hj. lia.
    + intros c' n' Hin'. rewrite Hout in Hin'.
      apply elem_of_take in Hin' as (i & Hi & Hik).
      apply (Hrank (c', n') (c, occurrences c classes)).
      eapply (StronglySorted_lookup _ _ i j); [done|lia|done..].
Qed.

(** C7. Take the data classes of the rows one row after the other, and
    count for each class how often the rows list it.  [class_counts_head
    k] holds [k] classes, or all of them when there are fewer, each once
    and with that count; the counts descend; of two classes with the same
    count, the one met first in the rows comes first; and a class that is
    left out has no larger count than any class kept, and at the same
    count was met later. *)
Theorem class_counts_head_top_k (df : list Row) (k : nat) :
  let classes := concat (DataClasses <$> df) in
  let count := λ c, sum_list_with (λ r, occurrences c (DataClasses r)) df in
  let out := class_counts_head k df in
  length out = (k `min` length (distinct classes))%nat ∧
  NoDup (out.*1) ∧
  (∀ c n, (c, n) ∈ out → (∃ r, r ∈ df ∧ c ∈ DataClasses r) ∧ n = count c) ∧
  (∀ (i j : nat) c1 n1 c2 n2,
     (i < j)%nat → out !! i = Some (c1, n1) → out !! j = Some (c2, n2) →
     (n2 ≤ n1)%nat ∧ (n1 = n2 → seen_before classes c1 c2)) ∧
  (∀ r c, r ∈ df → c ∈ DataClasses r → c ∉ out.*1 →
     length out = k ∧
     ∀ c' n', (c', n') ∈ out →
       (count c ≤ n')%nat ∧ (n' = count c → seen_before classes c' c)).
Proof.
  intros classes count out.
  destruct (class_counts_head_ranked df k) as (Hlen & Hnd & Hin & Hord & Hout).
  fold out in Hlen, Hnd, Hin, Hord, Hout.
  rewrite all_classes_concat in Hlen, Hord. fold classes in Hlen, Hord.
  split_and!; try done.
  - intros c n Hc. apply Hin in Hc as [Hc ->].
    split; [by apply elem_of_all_classes|apply all_classes_occurrences_sum].
  - intros r c Hr Hc Hnot.
    destruct (Hout c) as [Hk Hkept]; [apply elem_of_all_classes; by exists r|done|].
    split; [done|]. intros c' n' Hc'. unfold count.
    rewrite <- all_classes_occurrences_sum. unfold classes.
    rewrite <- all_classes_concat. by apply Hkept.
Qed.

Lemma class_counts_head_top_k_witness :
  (1 ≤ 1)%nat ∧
  (1%nat = 1%nat →
   seen_before (concat (DataClasses <$> sample_df)) "Password hints" "Usernames").
Proof.
  destruct (class_counts_head_top_k sample_df 4) as (_ & _ & _ & Hties & _).
  apply (Hties 2%nat 3%nat); [lia|reflexivity..].
Defined.

(** ** Sorting through an indexer *)

Lemma flip_seq (n : nat) :
  (λ j, n - 1 - j)%nat <$> seq 0 n = reverse (seq 0 n).
Proof.
  apply list_eq. intros i. rewrite list_lookup_fmap.
  destruct (decide (i < n)%nat) as [Hi|Hi].
  - rewrite reverse_lookup by (rewrite length_seq; lia).
    rewrite length_seq, !lookup_seq_lt by lia. simpl. f_equal. lia.
  - rewrite lookup_seq_ge by lia. symmetry. apply lookup_ge_None.
    rewrite length_reverse, length_seq. lia.
Qed.

Lemma take_rows_seq_from {A} (k l : list A) :
  omap (λ i, (k ++ l) !! i) (seq (length k) (length l)) = l.
Proof.
  revert k. induction l as [|x l IH]; intros k; [done|].
  simpl. rewrite list_lookup_middle by done. simpl. f_equal.
  specialize (IH (k ++ [x])). rewrite length_app, Nat.add_1_r in IH.
  rewrite <- IH at 2. by rewrite <- app_assoc.
Qed.

Lemma take_rows_seq {A} (l : list A) : take_rows l (seq 0 (length l)) = l.
Proof. apply (take_rows_seq_from [] l). Qed.

Lemma take_rows_perm {A} (l : list A) (indexer : list nat) :
  indexer ≡ₚ seq 0 (length l) → take_rows l indexer ≡ₚ l.
Proof.
  intros Hperm. rewrite <- (take_rows_seq l) at 2. unfold take_rows. by rewrite Hperm.
Qed.

Lemma take_rows_fmap {A B} (f : A → B) (l : list A) (indexer : list nat) :
  f <$> take_rows l indexer = take_rows (f <$> l) indexer.
Proof.
  unfold take_rows. induction indexer as [|i indexer IH]; [done|].
  simpl. rewrite list_lookup_fmap. destruct (l !! i) as [x|]; simpl; [f_equal|]; apply IH.
Qed.

Lemma take_rows_total `{!Inhabited A} (l : list A) (indexer : list nat) :
  Forall (λ i, i < length l)%nat indexer →
  take_rows l indexer = (λ i, l !!! i) <$> indexer.
Proof.
  unfold take_rows. induction 1 as [|i indexer Hi _ IH]; [done|].
  simpl. rewrite (list_lookup_lookup_total_lt l i) by done. simpl. f_equal. apply IH.
Qed.

Lemma perm_seq_bound (indexer : list nat) (n : nat) :
  indexer ≡ₚ seq 0 n → Forall (λ i, i < n)%nat indexer.
Proof.
  intros Hperm. rewrite Hperm. apply Forall_seq. lia.
Qed.

Lemma StronglySorted_fmap_inv {A B} (f : A → B) (R : relation B) (l : list A) :
  StronglySorted R (f <$> l) → StronglySorted (λ a b, R (f a) (f b)) l.
Proof.
  induction l as [|x l IH]; [constructor|].
  rewrite fmap_cons. intros [Hl Hx]%StronglySorted_inv. constructor; [by apply IH|].
  apply Forall_forall. intros y Hy. rewrite Forall_forall in Hx.
  apply Hx. by apply list_elem_of_fmap_2.
Qed.

Section NargsortDescending.
Context (argsort : list Z → list nat) (items : list Z).
Hypothesis argsort_ok : is_argsort (reverse items) (argsort (reverse items)).

Lemma nargsort_descending_perm :
  nargsort_descending argsort items ≡ₚ seq 0 (length items).
Proof.
  destruct argsort_ok as [Hperm _]. rewrite length_reverse in Hperm.
  unfold nargsort_descending. rewrite reverse_Permutation, Hperm, flip_seq.
  apply reverse_Permutation.
Qed.

(** The keys read through the indexer descend. *)
Lemma nargsort_descending_sorted :
  StronglySorted (λ a b, b ≤ a)
    ((λ i, items !!! i) <$> nargsort_descending argsort items).
Proof.
  destruct argsort_ok as [Hperm Hsorted].
  unfold nargsort_descending.
  apply Sorted_StronglySorted; [intros a b c; lia|].
  rewrite fmap_reverse, <- list_fmap_compose.
  replace ((λ i, items !!! i) ∘ (λ j, length items - 1 - j)%nat
             <$> argsort (reverse items))
    with ((λ i, reverse items !!! i) <$> argsort (reverse items)).
  { apply (Sorted_reverse Z.le), Hsorted. }
  apply list_fmap_ext. intros k j Hj. simpl.
  assert (j < length items)%nat as Hlt.
  { apply perm_seq_bound in Hperm. rewrite length_reverse in Hperm.
    by eapply Forall_lookup_1 in Hperm. }
  rewrite !list_lookup_total_alt, reverse_lookup by done.
  do 2 f_equal. lia.
Qed.
End NargsortDescending.

(** ** Ranking by accounts affected *)

Section SortValuesFacts.
Context (argsort : list Z → list nat) (frame : list Row).
Hypothesis argsort_ok :
  is_argsort (reverse (AccountsAffected <$> frame))
             (argsort (reverse (AccountsAffected <$> frame))).

Lemma sort_values_perm : sort_values argsort frame ≡ₚ frame.
Proof.
  unfold sort_values. apply take_rows_perm.
  rewrite <- (length_fmap AccountsAffected). by apply nargsort_descending_perm.
Qed.

Lemma sort_values_sorted :
  StronglySorted (λ a b, AccountsAffected b ≤ AccountsAffected a)
    (sort_values argsort frame).
Proof.
  apply (StronglySorted_fmap_inv AccountsAffected (λ a b, b ≤ a)).
  unfold sort_values. rewrite take_rows_fmap, take_rows_total.
  - by apply nargsort_descending_sorted.
  - apply perm_seq_bound. by apply nargsort_descending_perm.
Qed.
End SortValuesFacts.

(** C3, as the code has it. Whatever [kind] of [argsort] does the
    sorting, the ranking has [n] rows, or all rows when the frame has
    fewer; the counts descend; the rows are rows of the frame, none taken
    more often than it is there; and no row left out has a larger count
    than a row kept.  Nothing is said about rows with equal counts. *)
Theorem top_n_sorted_selection (argsort : list Z → list nat) (frame : list Row)
    (n : nat) :
  is_argsort (reverse (AccountsAffected <$> frame))
             (argsort (reverse (AccountsAffected <$> frame))) →
  let out := top_n argsort n frame in
  length out = (n `min` length frame)%nat ∧
  StronglySorted (λ a b, AccountsAffected b ≤ AccountsAffected a) out ∧
  out ⊆+ frame ∧
  ∃ rest, out ++ rest ≡ₚ frame ∧
    ∀ a b, a ∈ out → b ∈ rest → AccountsAffected b ≤ AccountsAffected a.
Proof.
  intros Hok out.
  pose proof (sort_values_perm argsort frame Hok) as Hperm.
  pose proof (sort_values_sorted argsort frame Hok) as Hsorted.
  assert (out = take n (sort_values argsort frame)) as -> by done.
  split_and!.
  - by rewrite length_take, Hperm.
  - by apply StronglySorted_take.
  - trans (sort_values argsort frame); [apply submseteq_take|].
    by apply Permutation_submseteq.
  - exists (drop n (sort_values argsort frame)). rewrite take_drop. split; [done|].
    intros a b Ha Hb. rewrite <- (take_drop n (sort_values argsort frame)) in Hsorted.
    by eapply (StronglySorted_app_1_elem_of _ _ _ a b) in Hsorted.
Qed.

Lemma top_n_sorted_selection_witness :
  let out := top_n npysort.argsort 15 df_ties in
  length out = (15 `min` length df_ties)%nat ∧
  StronglySorted (λ a b, AccountsAffected b ≤ AccountsAffected a) out ∧
  out ⊆+ df_ties ∧
  ∃ rest, out ++ rest ≡ₚ df_ties ∧
    ∀ a b, a ∈ out → b ∈ rest → AccountsAffected b ≤ AccountsAffected a.
Proof.
  apply (top_n_sorted_selection npysort.argsort df_ties 15).
  apply (bool_decide_unpack _). vm_compute. exact I.
Defined.

Lemma sorting_indexers_two_ties (indexer : list nat) :
  is_argsort [1; 1; 0; 0] indexer ↔
  indexer ∈ [[2; 3; 0; 1]; [2; 3; 1; 0]; [3; 2; 0; 1]; [3; 2; 1; 0]]%nat.
Proof.
  split.
  - intros Hok.
    assert (Forall (λ idx, is_argsort [1; 1; 0; 0] idx →
              idx ∈ [[2; 3; 0; 1]; [2; 3; 1; 0]; [3; 2; 0; 1]; [3; 2; 1; 0]]%nat)
              (permutations (seq 0 4))) as Hall
      by (apply (bool_decide_unpack _); vm_compute; exact I).
    rewrite Forall_forall in Hall. apply Hall; [|done].
    apply permutations_Permutation. symmetry. apply Hok.
  - rewrite !elem_of_cons, elem_of_nil.
    intros [->|[->|[->|[->|[]]]]]; apply (bool_decide_unpack _); vm_compute; exact I.
Qed.

(** C3, as the specification has it, fails.  In [df_two_ties] the rows
    [t00] and [t01] have no accounts and the rows [t02] and [t03] have
    one, so the keys handed to the sort are [1; 1; 0; 0].  Four indexers
    sort these keys.  Whatever sort [argsort] is, if it sorts the keys,
    [top_breaches] keeps the tied rows in the order of the frame under
    one of the four only; under each of the other three a tied pair comes
    out reversed.  Nothing in the script asks the sort for that one: it
    is called without [kind].  So it does not hold that every sort that
    sorts the keys ranks the tied rows in the order of the frame. *)
Lemma top_breaches_ties_follow_indexer :
  reverse (AccountsAffected <$> df_two_ties) = [1; 1; 0; 0] ∧
  (∀ indexer,
     is_argsort [1; 1; 0; 0] indexer ↔
     indexer ∈ [[2; 3; 0; 1]; [2; 3; 1; 0]; [3; 2; 0; 1]; [3; 2; 1; 0]]%nat) ∧
  (∀ argsort : list Z → list nat,
     is_argsort [1; 1; 0; 0] (argsort [1; 1; 0; 0]) →
     (BreachTitle <$> top_breaches argsort df_two_ties = ["t02"; "t03"; "t00"; "t01"]
      ↔ argsort [1; 1; 0; 0] = [2; 3; 0; 1]%nat)) ∧
  (∀ argsort : list Z → list nat,
     (argsort [1; 1; 0; 0] = [2; 3; 1; 0]%nat →
      BreachTitle <$> top_breaches argsort df_two_ties
      = ["t03"; "t02"; "t00"; "t01"]) ∧
     (argsort [1; 1; 0; 0] = [3; 2; 0; 1]%nat →
      BreachTitle <$> top_breaches argsort df_two_ties
      = ["t02"; "t03"; "t01"; "t00"]) ∧
     (argsort [1; 1; 0; 0] = [3; 2; 1; 0]%nat →
      BreachTitle <$> top_breaches argsort df_two_ties
      = ["t03"; "t02"; "t01"; "t00"])) ∧
  ¬ (∀ argsort : list Z → list nat,
       is_argsort [1; 1; 0; 0] (argsort [1; 1; 0; 0]) →
       BreachTitle <$> top_breaches argsort df_two_ties
       = ["t02"; "t03"; "t00"; "t01"]).
Proof.
  assert (∀ argsort : list Z → list nat,
            BreachTitle <$> top_breaches argsort df_two_ties
            = BreachTitle <$>
                head 15 (take_rows df_two_ties
                           (reverse ((λ j, 4 - 1 - j)%nat <$> argsort [1; 1; 0; 0]))))
    as Hrun by done.
  split_and!.
  - reflexivity.
  - apply sorting_indexers_two_ties.
  - intros argsort Hok. rewrite Hrun.
    apply sorting_indexers_two_ties in Hok.
    rewrite !elem_of_cons, elem_of_nil in Hok.
    destruct Hok as [->|[->|[->|[->|[]]]]]; vm_compute; split; done.
  - intros argsort. rewrite Hrun. split_and!; intros ->; reflexivity.
  - intros Hstable. specialize (Hstable (λ _, [3; 2; 1; 0]%nat)).
    rewrite Hrun in Hstable. discriminate Hstable.
    apply (bool_decide_unpack _). vm_compute. exact I.
Qed.

(** The portable quicksort of numpy is a sort that reorders ties: in
    [df_ties] the row [b09] stands before the row [b10] and both have 5
    accounts, yet under [npysort.argsort] the ranking has [b10] before
    [b09].  The 20 reversed keys are one run longer than 17, so it is
    partitioned: the pivot, the key 5 at offset 9, is put aside at offset
    18; the scan from the left stops at offset 9 and the scan from the
    right at offset 10, where the other key 5 is; that one moves to
    offset 9, and the pivot comes back to offset 10, behind it. *)
Example portable_quicksort_reorders_ties :
  BreachTitle <$> filter (λ r, AccountsAffected r = 5) df_ties = ["b09"; "b10"] ∧
  BreachTitle <$> filter (λ r, AccountsAffected r = 5)
                    (top_breaches npysort.argsort df_ties) = ["b10"; "b09"] ∧
  BreachTitle <$> top_breaches npysort.argsort df_ties
  = ["b00"; "b01"; "b02"; "b03"; "b04"; "b05"; "b06"; "b07"; "b08"; "b10"; "b09";
     "b11"; "b12"; "b13"; "b14"].
Proof. split_and!; vm_compute; reflexivity. Qed.

(** ** Verified and unverified *)

Lemma count_of_perm `{EqDecision K} (label : K) (c1 c2 : list (K * nat)) :
  c1 ≡ₚ c2 → count_of label c1 = count_of label c2.
Proof. intros Hperm. unfold count_of, total_count. by rewrite Hperm. Qed.

Lemma total_count_perm {K} (c1 c2 : list (K * nat)) :
  c1 ≡ₚ c2 → total_count c1 = total_count c2.
Proof. intros Hperm. unfold total_count. by rewrite Hperm. Qed.

Lemma total_count_rename {K L} (f : K → L) (counts : list (K * nat)) :
  total_count (prod_map f id <$> counts) = total_count counts.
Proof.
  unfold total_count. induction counts as [|[k n] counts IH]; [done|].
  rewrite fmap_cons. simpl. by rewrite IH.
Qed.

(** A label that one key is renamed to, among distinct keys. *)
Lemma count_of_rename `{EqDecision K, EqDecision L} (f : K → L) `{!Inj (=) (=) f}
    (h : K → nat) (k0 : K) (ks : list K) :
  NoDup ks →
  count_of (f k0) (prod_map f id <$> ((λ c, (c, h c)) <$> ks))
  = if decide (k0 ∈ ks) then h k0 else 0%nat.
Proof.
  unfold count_of, total_count.
  induction ks as [|k ks IH]; intros Hnd; [done|].
  apply NoDup_cons in Hnd as [Hk Hnd]. rewrite !fmap_cons.
  destruct (decide (k = k0)) as [->|Hne].
  - rewrite filter_cons_True by done. simpl. rewrite IH by done.
    rewrite decide_False by done. rewrite decide_True by left. lia.
  - rewrite filter_cons_False by (simpl; intros ?%(inj f); done).
    rewrite IH by done. case_decide as Hin.
    + rewrite decide_True; [done|by right].
    + rewrite decide_False; [done|]. by intros [?|?]%elem_of_cons.
Qed.

Lemma flags_occurrences (b : bool) (df : list Row) :
  occurrences b (omap id (IsVerified <$> df))
  = length (filter (λ r, IsVerified r = Some b) df).
Proof.
  unfold occurrences. induction df as [|r df IH]; [done|].
  rewrite fmap_cons. simpl. destruct (IsVerified r) as [b'|] eqn:Hr; simpl.
  - destruct (decide (b' = b)) as [->|Hne].
    + rewrite !filter_cons_True by done. simpl. f_equal. apply IH.
    + rewrite !filter_cons_False by congruence. apply IH.
  - rewrite filter_cons_False by congruence. apply IH.
Qed.

Lemma flags_present (df : list Row) :
  omap id (IsVerified <$> filter (λ r, IsVerified r ≠ None) df)
  = omap id (IsVerified <$> df).
Proof.
  induction df as [|r df IH]; [done|].
  destruct (IsVerified r) as [b|] eqn:Hr.
  - rewrite filter_cons_True by congruence. rewrite !fmap_cons, Hr. simpl.
    f_equal. apply IH.
  - rewrite filter_cons_False by (rewrite Hr; by intros ?).
    rewrite fmap_cons, Hr. simpl. apply IH.
Qed.

Lemma flags_length (df : list Row) :
  length (omap id (IsVerified <$> df))
  = length (filter (λ r, IsVerified r ≠ None) df).
Proof.
  induction df as [|r df IH]; [done|].
  rewrite fmap_cons. simpl. destruct (IsVerified r) as [b|] eqn:Hr; simpl.
  - rewrite filter_cons_True by congruence. simpl. f_equal. apply IH.
  - rewrite filter_cons_False by (rewrite Hr; by intros ?). apply IH.
Qed.

Global Instance rename_verified_inj : Inj (=) (=) rename_verified.
Proof. by intros [] [] ?. Qed.

(** C8. When [argsort] returns a sorting indexer for the two (or fewer)
    bucket counts, [verified_counts] has one row for each flag value that
    occurs, and no other row: a row [Verified] with the number of rows
    whose flag is true, when there is one, and a row [Unverified] with
    the number of rows whose flag is false, when there is one.  No label
    has two rows.  Rows without a flag are in neither count, and leaving
    them out of the frame changes nothing.  [verified_counts] has no
    failing branch. *)
Theorem verified_counts_buckets (argsort : list Z → list nat) (df : list Row) :
  is_argsort (reverse (count_values (verified_tally df)))
             (argsort (reverse (count_values (verified_tally df)))) →
  let counts := verified_counts argsort df in
  NoDup (counts.*1) ∧
  (∀ label n,
     (label, n) ∈ counts ↔
     (0 < n)%nat ∧
     ((label = "Verified" ∧
       n = length (filter (λ r, IsVerified r = Some true) df)) ∨
      (label = "Unverified" ∧
       n = length (filter (λ r, IsVerified r = Some false) df)))) ∧
  count_of "Verified" counts
    = length (filter (λ r, IsVerified r = Some true) df) ∧
  count_of "Unverified" counts
    = length (filter (λ r, IsVerified r = Some false) df) ∧
  total_count counts = length (filter (λ r, IsVerified r ≠ None) df) ∧
  verified_counts argsort (filter (λ r, IsVerified r ≠ None) df) = counts.
Proof.
  intros Hok counts.
  assert (counts ≡ₚ prod_map rename_verified id <$> verified_tally df) as Hperm.
  { unfold counts, verified_counts, value_counts, series_sort_values.
    apply fmap_Permutation, take_rows_perm.
    unfold count_values in *.
    rewrite <- (length_fmap (λ kc : bool * nat, Z.of_nat kc.2)).
    by apply nargsort_descending_perm. }
  assert (∀ b, count_of (rename_verified b) counts
               = length (filter (λ r, IsVerified r = Some b) df)) as Hbucket.
  { intros b. rewrite (count_of_perm _ _ _ Hperm). unfold verified_tally.
    rewrite Counter_distinct.
    rewrite (count_of_rename rename_verified) by apply NoDup_distinct.
    rewrite <- flags_occurrences. case_decide as Hin; [done|].
    rewrite elem_of_distinct in Hin. by rewrite occurrences_absent. }
  assert (∀ b n, (rename_verified b, n) ∈ counts ↔
            (0 < n)%nat ∧ n = length (filter (λ r, IsVerified r = Some b) df))
    as Hrow.
  { intros b n. rewrite Hperm, list_elem_of_fmap. split.
    - intros ([b' m] & [= Hb ->] & Hin). apply (inj rename_verified) in Hb as <-.
      unfold verified_tally in Hin. apply elem_of_Counter in Hin as [Hb ->].
      split; [by apply occurrences_present|apply flags_occurrences].
    - intros [Hpos ->]. exists (b, length (filter (λ r, IsVerified r = Some b) df)).
      split; [done|]. unfold verified_tally. apply elem_of_Counter.
      rewrite flags_occurrences. split; [|done].
      destruct (decide (b ∈ omap id (IsVerified <$> df))) as [|Hnot]; [done|].
      apply occurrences_absent in Hnot. rewrite flags_occurrences in Hnot. lia. }
  split_and!.
  - rewrite Hperm, <- list_fmap_compose.
    replace (fst ∘ prod_map rename_verified id)
      with (rename_verified ∘ (fst : bool * nat → bool)) by done.
    rewrite list_fmap_compose. apply (NoDup_fmap_2 _).
    unfold verified_tally. rewrite Counter_keys. apply NoDup_distinct.
  - intros label n. split.
    + intros Hin. pose proof Hin as Hin'. rewrite Hperm in Hin'.
      apply list_elem_of_fmap in Hin' as ([b m] & [= -> ->] & _).
      apply Hrow in Hin as [Hpos Hn]. split; [done|].
      destruct b; [by left|by right].
    + intros [Hpos [[-> Hn]|[-> Hn]]].
      * by apply (Hrow true).
      * by apply (Hrow false).
  - apply (Hbucket true).
  - apply (Hbucket false).
  - rewrite (total_count_perm _ _ Hperm), total_count_rename.
    unfold verified_tally. by rewrite Counter_total, flags_length.
  - unfold counts, verified_counts, value_counts. by rewrite flags_present.
Qed.

Lemma verified_counts_buckets_witness :
  let counts := verified_counts npysort.argsort sample_df in
  NoDup (counts.*1) ∧
  (∀ label n,
     (label, n) ∈ counts ↔
     (0 < n)%nat ∧
     ((label = "Verified" ∧
       n = length (filter (λ r, IsVerified r = Some true) sample_df)) ∨
      (label = "Unverified" ∧
       n = length (filter (λ r, IsVerified r = Some false) sample_df)))) ∧
  count_of "Verified" counts
    = length (filter (λ r, IsVerified r = Some true) sample_df) ∧
  count_of "Unverified" counts
    = length (filter (λ r, IsVerified r = Some false) sample_df) ∧
  total_count counts = length (filter (λ r, IsVerified r ≠ None) sample_df) ∧
  verified_counts npysort.argsort (filter (λ r, IsVerified r ≠ None) sample_df)
    = counts.
Proof.
  apply (verified_counts_buckets npysort.argsort sample_df).
  apply (bool_decide_unpack _). vm_compute. exact I.
Defined.

(** * Further properties of the script *)

Example str_replace_markup_examples :
  str_replace_markup "In <a href='x'>October</a> 2013, <em>153m</em> accounts"
    = "In October 2013, 153m accounts" ∧
  str_replace_markup "a < b and c > d" = "a  d" ∧
  str_replace_markup "<>" = "<>" ∧
  str_replace_markup "<>>" = "" ∧
  str_replace_markup "<a<b>b>" = "<ab>" ∧
  str_replace_markup "1 << 2 <tail" = "1 << 2 <tail".
Proof. split_and!; reflexivity. Qed.

Example sample_breaches_by_year :
  breaches_by_year sample_df = [(2013, 1%nat); (2019, 1%nat)].
Proof. reflexivity. Qed.

(** ** Markup in descriptions *)

Lemma close_tag_suffix (s after : list ascii) :
  close_tag s = Some after → ∃ tag, s = tag ++ after ∧ tag ≠ [].
Proof.
  revert after. induction s as [|c s IH]; intros after; simpl; [done|].
  repeat case_decide; try done.
  - intros [= <-]. by exists [c].
  - intros Hc. destruct (IH _ Hc) as (tag & -> & _). by exists (c :: tag).
Qed.

Lemma match_tag_suffix (s after : list ascii) :
  match_tag s = Some after → ∃ tag, s = tag ++ after ∧ tag ≠ [].
Proof.
  unfold match_tag. destruct s as [|c0 [|c1 s]]; try done.
  case_decide; [|done]. intros Hc.
  destruct (close_tag_suffix _ _ Hc) as (tag & -> & _).
  by exists (c0 :: c1 :: tag).
Qed.

Lemma match_tag_shorter (s after : list ascii) :
  match_tag s = Some after → (length after < length s)%nat.
Proof.
  intros (tag & -> & Htag)%match_tag_suffix. rewrite length_app.
  destruct tag; [done|simpl; lia].
Qed.

Lemma re_sub_markup_fuel (fuel1 fuel2 : nat) (s : list ascii) :
  (length s ≤ fuel1)%nat → (length s ≤ fuel2)%nat →
  re_sub_markup fuel1 s = re_sub_markup fuel2 s.
Proof.
  revert fuel2 s. induction fuel1 as [|fuel1 IH]; intros fuel2 s H1 H2.
  - destruct s; [|simpl in H1; lia]. by destruct fuel2.
  - destruct fuel2 as [|fuel2]; [destruct s; [done|simpl in H2; lia]|].
    destruct s as [|c rest]; [done|]. cbn [re_sub_markup].
    destruct (match_tag (c :: rest)) as [after|] eqn:Hm.
    + apply match_tag_shorter in Hm. apply IH; simpl in *; lia.
    + f_equal. apply IH; simpl in *; lia.
Qed.

(** [re.sub] step by step: where the pattern matches, the match is
    dropped; elsewhere one character is copied. *)
Lemma re_sub_cons (c : ascii) (rest : list ascii) :
  re_sub (c :: rest)
  = match match_tag (c :: rest) with
    | Some after => re_sub after
    | None => c :: re_sub rest
    end.
Proof.
  unfold re_sub. cbn [length re_sub_markup].
  destruct (match_tag (c :: rest)) as [after|] eqn:Hm.
  - apply match_tag_shorter in Hm. apply re_sub_markup_fuel; simpl in *; lia.
  - done.
Qed.

Lemma re_sub_ind (P : list ascii → Prop) :
  P [] →
  (∀ c rest after, match_tag (c :: rest) = Some after → P after → P (c :: rest)) →
  (∀ c rest, match_tag (c :: rest) = None → P rest → P (c :: rest)) →
  ∀ s, P s.
Proof.
  intros Hnil Hmatch Hcopy s.
  induction s as [s IH] using (induction_ltof1 _ (@length ascii)).
  unfold ltof in IH. destruct s as [|c rest]; [done|].
  destruct (match_tag (c :: rest)) as [after|] eqn:Hm.
  - eapply Hmatch; [done|]. apply IH. by apply match_tag_shorter.
  - apply Hcopy; [done|]. apply IH. simpl. lia.
Qed.

Lemma match_tag_no_lt (c : ascii) (rest : list ascii) :
  c ≠ "<"%char → match_tag (c :: rest) = None.
Proof.
  intros Hc. unfold match_tag. destruct rest; [done|].
  rewrite decide_False; [done|]. by intros [? _].
Qed.

Lemma re_sub_no_lt (s : list ascii) : "<"%char ∉ s → re_sub s = s.
Proof.
  induction s as [|c s IH]; intros Hnot; [done|].
  apply not_elem_of_cons in Hnot as [Hne Hnot].
  rewrite re_sub_cons, match_tag_no_lt by done. by rewrite IH.
Qed.

Lemma re_sub_sublist (s : list ascii) : re_sub s `sublist_of` s.
Proof.
  induction s as [|c rest after Hm IH|c rest Hm IH] using re_sub_ind.
  - done.
  - rewrite re_sub_cons, Hm.
    destruct (match_tag_suffix _ _ Hm) as (tag & -> & _).
    by apply sublist_inserts_l.
  - rewrite re_sub_cons, Hm. by apply sublist_skip.
Qed.

Lemma close_tag_app_lt (s r : list ascii) :
  close_tag (s ++ "<"%char :: r) = (λ after, after ++ "<"%char :: r) <$> close_tag s.
Proof.
  induction s as [|c s IH]; simpl; [done|].
  repeat case_decide; done.
Qed.

Lemma match_tag_app_lt (c : ascii) (s r : list ascii) :
  match_tag ((c :: s) ++ "<"%char :: r)
  = (λ after, after ++ "<"%char :: r) <$> match_tag (c :: s).
Proof.
  unfold match_tag. destruct s as [|c1 s]; cbn [app].
  - case_decide as H; [by destruct H|done].
  - case_decide; [|done]. apply close_tag_app_lt.
Qed.

(** A [<] is always a fresh start: no match begun before it runs over it. *)
Lemma re_sub_app_lt (a r : list ascii) :
  re_sub (a ++ "<"%char :: r) = re_sub a ++ re_sub ("<"%char :: r).
Proof.
  induction a as [|c rest after Hm IH|c rest Hm IH] using re_sub_ind.
  - done.
  - rewrite <- app_comm_cons at 1.
    rewrite (re_sub_cons c (rest ++ _)), app_comm_cons, match_tag_app_lt, Hm.
    simpl. by rewrite IH, (re_sub_cons c rest), Hm.
  - rewrite <- app_comm_cons at 1.
    rewrite (re_sub_cons c (rest ++ _)), app_comm_cons, match_tag_app_lt, Hm.
    simpl. by rewrite IH, (re_sub_cons c rest), Hm.
Qed.

Lemma close_tag_plain (t b : list ascii) :
  "<"%char ∉ t → ">"%char ∉ t → close_tag (t ++ ">"%char :: b) = Some b.
Proof.
  induction t as [|c t IH]; intros Hlt Hgt; simpl.
  - done.
  - apply not_elem_of_cons in Hlt as [? ?]. apply not_elem_of_cons in Hgt as [? ?].
    rewrite !decide_False by done. auto.
Qed.

Lemma re_sub_tag (a t b : list ascii) :
  t ≠ [] → "<"%char ∉ t → ">"%char ∉ t →
  re_sub (a ++ "<"%char :: t ++ ">"%char :: b) = re_sub a ++ re_sub b.
Proof.
  intros Ht Hlt Hgt. rewrite re_sub_app_lt. f_equal.
  rewrite re_sub_cons. destruct t as [|c1 t]; [done|].
  apply not_elem_of_cons in Hlt as [? ?]. apply not_elem_of_cons in Hgt as [? ?].
  unfold match_tag. simpl. rewrite decide_True by done.
  by rewrite close_tag_plain.
Qed.

Lemma list_ascii_of_string_app (s1 s2 : string) :
  String.list_ascii_of_string (s1 +:+ s2)
  = String.list_ascii_of_string s1 ++ String.list_ascii_of_string s2.
Proof. induction s1 as [|c s1 IH]; simpl; [done|]. by rewrite IH. Qed.

Lemma string_of_list_ascii_app (l1 l2 : list ascii) :
  String.string_of_list_ascii (l1 ++ l2)
  = String.string_of_list_ascii l1 +:+ String.string_of_list_ascii l2.
Proof. induction l1 as [|c l1 IH]; simpl; [done|]. by rewrite IH. Qed.

Lemma length_list_ascii_of_string (s : string) :
  length (String.list_ascii_of_string s) = String.length s.
Proof. induction s as [|c s IH]; simpl; [done|]. by rewrite IH. Qed.

Lemma close_tag_has_gt (s after : list ascii) :
  close_tag s = Some after → ">"%char ∈ s.
Proof.
  induction s as [|c s IH]; simpl; [done|].
  repeat case_decide; try done.
  - intros _. subst c. left.
  - intros Hc. right. auto.
Qed.

Lemma re_sub_no_gt (s : list ascii) : ">"%char ∉ s → re_sub s = s.
Proof.
  induction s as [|c rest after Hm IH|c rest Hm IH] using re_sub_ind; intros Hnot.
  - done.
  - exfalso. apply Hnot. unfold match_tag in Hm.
    destruct rest as [|c1 rest]; [done|]. case_decide; [|done].
    right. right. by eapply close_tag_has_gt.
  - rewrite re_sub_cons, Hm. apply not_elem_of_cons in Hnot as [_ Hnot].
    by rewrite IH.
Qed.

(** X1. A description that has no [<], or no [>], comes out of the
    clean-up unchanged. *)
Theorem str_replace_markup_plain (description : string) :
  "<"%char ∉ String.list_ascii_of_string description ∨
  ">"%char ∉ String.list_ascii_of_string description →
  str_replace_markup description = description.
Proof.
  unfold str_replace_markup. intros [Hnot|Hnot].
  - rewrite re_sub_no_lt by done. apply String.string_of_list_ascii_of_string.
  - rewrite re_sub_no_gt by done. apply String.string_of_list_ascii_of_string.
Qed.

Lemma str_replace_markup_plain_witness :
  str_replace_markup "5 > 3, so 1,000,000 accounts & more" 
  = "5 > 3, so 1,000,000 accounts & more".
Proof.
  apply str_replace_markup_plain. left.
  apply (bool_decide_unpack _). vm_compute. exact I.
Defined.

(** X2. The clean-up only deletes: the characters of the result are
    characters of the description, in their order, so the result is never
    longer. *)
Theorem str_replace_markup_only_deletes (description : string) :
  String.list_ascii_of_string (str_replace_markup description)
    `sublist_of` String.list_ascii_of_string description ∧
  (String.length (str_replace_markup description) ≤ String.length description)%nat.
Proof.
  assert (String.list_ascii_of_string (str_replace_markup description)
            `sublist_of` String.list_ascii_of_string description) as Hsub.
  { unfold str_replace_markup. rewrite String.list_ascii_of_string_of_list_ascii.
    apply re_sub_sublist. }
  split; [done|]. apply sublist_length in Hsub.
  by rewrite !length_list_ascii_of_string in Hsub.
Qed.

(** X3. A tag [<t>] whose inside [t] is not empty and has neither [<]
    nor [>] is removed wherever it stands, and the text before it and the
    text behind it are cleaned up independently of each other. *)
Theorem str_replace_markup_tag (a t b : string) :
  t ≠ "" →
  "<"%char ∉ String.list_ascii_of_string t →
  ">"%char ∉ String.list_ascii_of_string t →
  str_replace_markup (a +:+ "<" +:+ t +:+ ">" +:+ b)
  = str_replace_markup a +:+ str_replace_markup b.
Proof.
  intros Ht Hlt Hgt. unfold str_replace_markup.
  rewrite !list_ascii_of_string_app. simpl.
  rewrite re_sub_tag, string_of_list_ascii_app; try done.
  intros Hnil. apply Ht.
  rewrite <- (String.string_of_list_ascii_of_string t). by rewrite Hnil.
Qed.

Lemma str_replace_markup_tag_witness :
  str_replace_markup ("In <b>2013" +:+ "<" +:+ "a href='x'" +:+ ">" +:+ "Adobe</a>")
  = str_replace_markup "In <b>2013" +:+ str_replace_markup "Adobe</a>".
Proof.
  apply str_replace_markup_tag; [discriminate|..];
    apply (bool_decide_unpack _); vm_compute; exact I.
Defined.

(** ** Breaches per year *)

Global Instance key_le_trans : Transitive key_le.
Proof. intros a b c. unfold key_le. lia. Qed.

Global Instance key_le_total : Total key_le.
Proof. intros a b. unfold key_le. lia. Qed.

Lemma years_occurrences (y : Z) (df : list Row) :
  occurrences y (omap id (Year <$> df)) = length (rows_of_year df y).
Proof.
  unfold occurrences, rows_of_year. induction df as [|r df IH]; [done|].
  rewrite fmap_cons. simpl. destruct (Year r) as [y'|] eqn:Hr; simpl.
  - destruct (decide (y' = y)) as [->|Hne].
    + rewrite !filter_cons_True by done. simpl. f_equal. apply IH.
    + rewrite !filter_cons_False by congruence. apply IH.
  - rewrite filter_cons_False by congruence. apply IH.
Qed.

Lemma years_length (df : list Row) :
  length (omap id (Year <$> df)) = length (filter (λ r, Year r ≠ None) df).
Proof.
  induction df as [|r df IH]; [done|].
  rewrite fmap_cons. simpl. destruct (Year r) as [y|] eqn:Hr; simpl.
  - rewrite filter_cons_True by congruence. simpl. f_equal. apply IH.
  - rewrite filter_cons_False by (rewrite Hr; by intros ?). apply IH.
Qed.

Lemma breaches_by_year_perm (df : list Row) :
  breaches_by_year df ≡ₚ Counter (omap id (Year <$> df)).
Proof. apply merge_sort_Permutation. Qed.

Lemma StronglySorted_le_lt (l : list Z) :
  StronglySorted Z.le l → NoDup l → StronglySorted Z.lt l.
Proof.
  induction 1 as [|x l Hl IH Hx]; intros Hnd; [constructor|].
  apply NoDup_cons in Hnd as [Hnin Hnd]. constructor; [auto|].
  apply Forall_forall. intros y Hy. rewrite Forall_forall in Hx.
  specialize (Hx y Hy). assert (x ≠ y) by (by intros ->). lia.
Qed.

Lemma breaches_by_year_elem (df : list Row) (year : Z) (count : nat) :
  (year, count) ∈ breaches_by_year df
  ↔ count = length (rows_of_year df year) ∧ (0 < count)%nat.
Proof.
  rewrite breaches_by_year_perm, elem_of_Counter, <- years_occurrences. split.
  - intros [Hin ->]. split; [done|]. by apply occurrences_present.
  - intros [-> Hpos]. split; [|done].
    destruct (decide (year ∈ omap id (Year <$> df))) as [|Hnot]; [done|].
    rewrite occurrences_absent in Hpos by done. lia.
Qed.

(** X4. [breaches_by_year] has a row for a year exactly when some breach
    has that year, and its count is the number of those breaches; a
    breach without a date is in no count. *)
Theorem breaches_by_year_counts (df : list Row) (year : Z) (count : nat) :
  (year, count) ∈ breaches_by_year df
  ↔ count = length (rows_of_year df year) ∧ (0 < count)%nat.
Proof. apply breaches_by_year_elem. Qed.

(** X5. The years of [breaches_by_year] ascend strictly, so every year
    has one bar, and the counts add up to the number of breaches that
    have a date. *)
Theorem breaches_by_year_ascending (df : list Row) :
  StronglySorted Z.lt ((breaches_by_year df).*1) ∧
  total_count (breaches_by_year df) = length (filter (λ r, Year r ≠ None) df).
Proof.
  split.
  - apply StronglySorted_le_lt.
    + eapply (StronglySorted_fmap fst key_le Z.le); [done|].
      apply StronglySorted_merge_sort; apply _.
    + rewrite breaches_by_year_perm, Counter_keys. apply NoDup_distinct.
  - unfold total_count. rewrite breaches_by_year_perm.
    fold (total_count (Counter (omap id (Year <$> df)))).
    by rewrite Counter_total, years_length.
Qed.

Lemma breaches_by_year_counts_witness :
  (2013, 1%nat) ∈ breaches_by_year sample_df
  ↔ 1%nat = length (rows_of_year sample_df 2013) ∧ (0 < 1)%nat.
Proof. apply (breaches_by_year_counts sample_df 2013 1). Defined.

(** ** The year chart *)

Lemma take_rows_elem {A} (l : list A) (indexer : list nat) (x : A) :
  x ∈ take_rows l indexer → x ∈ l.
Proof.
  unfold take_rows. intros Hin. apply list_elem_of_omap in Hin as (i & _ & Hi).
  by eapply list_elem_of_lookup_2.
Qed.

Lemma sort_values_elem (argsort : list Z → list nat) (frame : list Row) (r : Row) :
  r ∈ sort_values argsort frame → r ∈ frame.
Proof. apply take_rows_elem. Qed.

Lemma top_n_elem (argsort : list Z → list nat) (n : nat) (frame : list Row) (r : Row) :
  r ∈ top_n argsort n frame → r ∈ frame.
Proof. intros Hin. apply subseteq_take in Hin. by eapply sort_values_elem. Qed.

Lemma year_chart_click (argsort : list Z → list nat) (df : list Row)
    (clickData : ClickData) (point : Point) (rest : list Point) :
  points clickData = point :: rest →
  update_top_breaches_for_year argsort df (Some clickData)
  = Ok {| fig_frame := top_n argsort 5 (rows_of_year df (pt_x point));
          fig_title := "Top 5 Breaches in " +:+ pretty (pt_x point) |}.
Proof. intros Hp. unfold update_top_breaches_for_year, point0. by rewrite Hp. Qed.

(** X6. A click on a year makes [update_top_breaches_for_year] return a
    figure titled with that year whose rows, at most five, are rows of
    [df] of that year; for a year without breaches the figure has no
    rows, and the callback does not raise. *)
Theorem year_chart_rows (argsort : list Z → list nat) (df : list Row)
    (clickData : ClickData) (point : Point) (rest : list Point) :
  points clickData = point :: rest →
  ∃ fig,
    update_top_breaches_for_year argsort df (Some clickData) = Ok fig ∧
    fig_title fig = "Top 5 Breaches in " +:+ pretty (pt_x point) ∧
    (length (fig_frame fig) ≤ 5)%nat ∧
    (∀ r, r ∈ fig_frame fig → r ∈ df ∧ Year r = Some (pt_x point)) ∧
    (rows_of_year df (pt_x point) = [] → fig_frame fig = []).
Proof.
  intros Hp. eexists. split; [by eapply year_chart_click|]. simpl.
  split_and!.
  - done.
  - unfold top_n, head. rewrite length_take. lia.
  - intros r Hin. apply top_n_elem in Hin.
    by apply list_elem_of_filter in Hin as [? ?].
  - intros Hnil. destruct (top_n argsort 5 (rows_of_year df (pt_x point)))
      as [|r l] eqn:Htop; [done|].
    assert (r ∈ rows_of_year df (pt_x point)) as Hin
      by (eapply top_n_elem; rewrite Htop; left).
    rewrite Hnil in Hin. by apply elem_of_nil in Hin.
Qed.

Lemma year_chart_rows_witness :
  ∃ fig,
    update_top_breaches_for_year npysort.argsort sample_df (Some (click 2019 "1"))
      = Ok fig ∧
    fig_title fig = "Top 5 Breaches in " +:+ pretty 2019 ∧
    (length (fig_frame fig) ≤ 5)%nat ∧
    (∀ r, r ∈ fig_frame fig → r ∈ sample_df ∧ Year r = Some 2019) ∧
    (rows_of_year sample_df 2019 = [] → fig_frame fig = []).
Proof.
  apply (year_chart_rows npysort.argsort sample_df (click 2019 "1")
           {| pt_x := 2019; pt_y := "1" |} []).
  reflexivity.
Defined.

(** X7. A click on a year that [breaches_by_year] lists with count [n]
    gives, when [argsort] sorts the counts of that year's rows, a figure
    with [min 5 n] rows, hence at least one; the counts of its rows
    descend, and its first row has the most accounts of all breaches of
    that year. *)
Theorem year_chart_of_listed_year (argsort : list Z → list nat) (df : list Row)
    (year : Z) (n : nat) (clickData : ClickData) (point : Point)
    (rest : list Point) :
  (year, n) ∈ breaches_by_year df →
  is_argsort (reverse (AccountsAffected <$> rows_of_year df year))
             (argsort (reverse (AccountsAffected <$> rows_of_year df year))) →
  points clickData = point :: rest →
  pt_x point = year →
  ∃ fig top others,
    update_top_breaches_for_year argsort df (Some clickData) = Ok fig ∧
    fig_frame fig = top :: others ∧
    length (fig_frame fig) = (5 `min` n)%nat ∧
    StronglySorted (λ a b, AccountsAffected b ≤ AccountsAffected a) (fig_frame fig) ∧
    ∀ r, r ∈ df → Year r = Some year → AccountsAffected r ≤ AccountsAffected top.
Proof.
  intros Hlisted Hok Hp <-.
  apply breaches_by_year_elem in Hlisted as [-> Hpos].
  set (frame := rows_of_year df (pt_x point)) in *.
  pose proof (sort_values_perm argsort frame Hok) as Hperm.
  pose proof (sort_values_sorted argsort frame Hok) as Hsorted.
  assert (length (top_n argsort 5 frame) = (5 `min` length frame)%nat) as Hlen.
  { unfold top_n, head. by rewrite length_take, Hperm. }
  destruct (sort_values argsort frame) as [|top sorted] eqn:Hsv.
  { apply Permutation_length in Hperm. simpl in Hperm. lia. }
  exists {| fig_frame := top_n argsort 5 frame;
            fig_title := "Top 5 Breaches in " +:+ pretty (pt_x point) |},
         top, (take 4 sorted).
  split; [by eapply year_chart_click|]. simpl.
  assert (top_n argsort 5 frame = top :: take 4 sorted) as Htop.
  { unfold top_n, head. by rewrite Hsv. }
  split_and!; try done.
  - rewrite Htop. apply (StronglySorted_take _ (top :: sorted) 5). done.
  - intros r Hin Hyear.
    assert (r ∈ top :: sorted) as Hr.
    { rewrite Hperm. by apply list_elem_of_filter. }
    apply StronglySorted_inv in Hsorted as [_ Hall].
    apply elem_of_cons in Hr as [->|Hr]; [lia|].
    rewrite Forall_forall in Hall. by apply Hall.
Qed.

Lemma year_chart_of_listed_year_witness :
  ∃ fig top others,
    update_top_breaches_for_year npysort.argsort sample_df (Some (click 2013 "1"))
      = Ok fig ∧
    fig_frame fig = top :: others ∧
    length (fig_frame fig) = (5 `min` 1)%nat ∧
    StronglySorted (λ a b, AccountsAffected b ≤ AccountsAffected a) (fig_frame fig) ∧
    ∀ r, r ∈ sample_df → Year r = Some 2013 →
      AccountsAffected r ≤ AccountsAffected top.
Proof.
  apply (year_chart_of_listed_year npysort.argsort sample_df 2013 1
           (click 2013 "1") {| pt_x := 2013; pt_y := "1" |} []).
  - apply (bool_decide_unpack _). vm_compute. exact I.
  - apply (bool_decide_unpack _). vm_compute. exact I.
  - reflexivity.
  - reflexivity.
Defined.

(** ** Clicks on drawn bars *)

Lemma breach_text_ok (breach : Row) :
  (∀ t, BreachDate breach = Some t → valid_date t) →
  ∃ text, breach_text breach = Ok text.
Proof.
  intros Hv. destruct (breach_text_cases breach) as (_ & Hvalid & _ & Hnat).
  destruct (BreachDate breach) as [t|] eqn:Hd; [|by apply Hnat].
  apply (Hvalid t); auto.
Qed.


Lemma bar_click_found (df : list Row) (r : Row) :
  r ∈ df →
  ∃ shown, shown ∈ df ∧ BreachTitle shown = BreachTitle r ∧
    display_breach_details df (Some (bar_click r)) = breach_text shown ∧
    display_yearly_breach_details df (Some (bar_click r)) = breach_text shown ∧
    ∃ before after, df = before ++ shown :: after ∧
      Forall (λ r', BreachTitle r' ≠ BreachTitle r) before.
Proof.
  intros Hin.
  assert (BreachTitle r ∈ BreachTitle <$> df) as Ht by (by apply list_elem_of_fmap_2).
  destruct (rows_with_title_first df _ Ht)
    as (before & shown & after & Hdf & Hshown & Hb & Hi).
  exists shown.
  destruct (display_details_found df (bar_click r)
              {| pt_x := AccountsAffected r; pt_y := BreachTitle r |} [] shown)
    as [H1 H2]; [done..|].
  split_and!; try done.
  - rewrite Hdf. apply elem_of_app. right. left.
  - by exists before, after.
Qed.

Lemma year_chart_frame_elem (argsort : list Z → list nat) (df : list Row)
    (clickData : option ClickData) (fig : Figure) (r : Row) :
  update_top_breaches_for_year argsort df clickData = Ok fig →
  r ∈ fig_frame fig → r ∈ df.
Proof.
  unfold update_top_breaches_for_year. intros Hfig Hin.
  destruct clickData as [cd|].
  - destruct (point0 cd) as [p|]; [|done].
    injection Hfig as <-. cbn [fig_frame] in Hin.
    apply (top_n_elem argsort 5) in Hin.
    by apply list_elem_of_filter in Hin as [_ ?].
  - injection Hfig as <-. by apply elem_of_nil in Hin.
Qed.



Lemma NoDup_fmap_eq {A B} (f : A → B) (l : list A) (x y : A) :
  NoDup (f <$> l) → x ∈ l → y ∈ l → f x = f y → x = y.
Proof.
  intros Hnd Hx Hy Hf.
  apply list_elem_of_lookup_1 in Hx as [i Hi].
  apply list_elem_of_lookup_1 in Hy as [j Hj].
  assert (i = j) as ->.
  { eapply (NoDup_lookup (f <$> l)); [done|..];
      rewrite list_lookup_fmap; [by rewrite Hi|by rewrite Hj, Hf]. }
  congruence.
Qed.

Lemma unique_titles_exact_row_aux (df : list Row) (r : Row) :
  NoDup (BreachTitle <$> df) →
  r ∈ df →
  display_breach_details df (Some (bar_click r)) = breach_text r ∧
  display_yearly_breach_details df (Some (bar_click r)) = breach_text r.
Proof.
  intros Hnd Hin.
  destruct (bar_click_found df r Hin) as (shown & Hs & Ht & H1 & H2 & _).
  by rewrite (NoDup_fmap_eq BreachTitle df shown r Hnd Hs Hin Ht) in H1, H2.
Qed.

(** X9. When no two rows of [df] share a title, a click on the bar of a
    row makes both detail callbacks return what [breach_text] makes of
    exactly that row: its text when its date is NaT or a date
    [datetime.date] accepts, [NotImplementedError] otherwise. *)
Theorem unique_titles_exact_row (df : list Row) (r : Row) :
  NoDup (BreachTitle <$> df) →
  r ∈ df →
  display_breach_details df (Some (bar_click r)) = breach_text r ∧
  display_yearly_breach_details df (Some (bar_click r)) = breach_text r ∧
  ((∀ t, BreachDate r = Some t → valid_date t) →
   ∃ text, breach_text r = Ok text) ∧
  (∀ t, BreachDate r = Some t → ¬ valid_date t →
   breach_text r = Raise NotImplementedError).
Proof.
  intros Hnd Hin.
  destruct (unique_titles_exact_row_aux df r Hnd Hin) as [H1 H2].
  destruct (breach_text_cases r) as (_ & _ & Hinvalid & _).
  split_and!; try done. apply breach_text_ok.
Qed.

Lemma unique_titles_exact_row_witness :
  display_breach_details df_three (Some (bar_click (dated_row "Beta" 500 2019)))
    = breach_text (dated_row "Beta" 500 2019) ∧
  display_yearly_breach_details df_three
    (Some (bar_click (dated_row "Beta" 500 2019)))
    = breach_text (dated_row "Beta" 500 2019) ∧
  ((∀ t, BreachDate (dated_row "Beta" 500 2019) = Some t → valid_date t) →
   ∃ text, breach_text (dated_row "Beta" 500 2019) = Ok text) ∧
  (∀ t, BreachDate (dated_row "Beta" 500 2019) = Some t → ¬ valid_date t →
   breach_text (dated_row "Beta" 500 2019) = Raise NotImplementedError).
Proof.
  apply (unique_titles_exact_row df_three (dated_row "Beta" 500 2019)).
  - apply (bool_decide_unpack _). vm_compute. exact I.
  - apply (bool_decide_unpack _). vm_compute. exact I.
Defined.

(** X10. The drill-down: from the page as loaded, a click on a year and
    then a click on a bar of the figure that it returned leave the year
    chart on that figure and the panel of the overall chart on its
    prompt.  When titles are unique, the year-scoped panel shows the text
    of the clicked row if [breach_text] returns one, and stays on its
    prompt if [breach_text] raises. *)
Theorem drill_down (argsort : list Z → list nat) (df : list Row)
    (clickData : ClickData) (fig : Figure) (r : Row) :
  NoDup (BreachTitle <$> df) →
  update_top_breaches_for_year argsort df (Some clickData) = Ok fig →
  r ∈ fig_frame fig →
  let page :=
    run argsort df (initial_page argsort df)
      [ {| ev_source := "breaches-over-time-chart"; ev_click := clickData |};
        {| ev_source := "top-breaches-year-chart"; ev_click := bar_click r |} ] in
  page !! "top-breaches-year-chart" = Some (FigureOf fig) ∧
  page !! "breach-details" = Some (Children breach_details_prompt) ∧
  page !! "yearly-breach-details"
  = Some (Children match breach_text r with
                   | Ok text => text
                   | Raise _ => yearly_breach_details_prompt
                   end).
Proof.
  intros Hnd Hfig Hin page.
  assert (r ∈ df) as Hdf by (by eapply year_chart_frame_elem).
  destruct (unique_titles_exact_row_aux df r Hnd Hdf) as [_ Hshow].
  destruct (initial_page_lookup argsort df) as (I1 & I2 & I3).
  unfold page, run. simpl.
  unfold dispatch, callbacks. simpl. unfold fire, cb_fun, cb_output.
  rewrite Hfig, Hshow. simpl.
  destruct (breach_text r) as [text|e]; simpl; split_and!.
  - rewrite lookup_insert_ne by done. by rewrite lookup_insert_eq.
  - rewrite !lookup_insert_ne by done. done.
  - by rewrite lookup_insert_eq.
  - by rewrite lookup_insert_eq.
  - rewrite !lookup_insert_ne by done. done.
  - rewrite lookup_insert_ne by done. done.
Qed.

Lemma drill_down_witness :
  let page :=
    run npysort.argsort df_three (initial_page npysort.argsort df_three)
      [ {| ev_source := "breaches-over-time-chart"; ev_click := click 2019 "2" |};
        {| ev_source := "top-breaches-year-chart";
           ev_click := bar_click (dated_row "Beta" 500 2019) |} ] in
  page !! "top-breaches-year-chart"
    = Some (FigureOf {| fig_frame := [dated_row "Beta" 500 2019;
                                      dated_row "Alpha" 100 2019];
                        fig_title := "Top 5 Breaches in 2019" |}) ∧
  page !! "breach-details" = Some (Children breach_details_prompt) ∧
  page !! "yearly-breach-details"
  = Some (Children match breach_text (dated_row "Beta" 500 2019) with
                   | Ok text => text
                   | Raise _ => yearly_breach_details_prompt
                   end).
Proof.
  apply (drill_down npysort.argsort df_three (click 2019 "2")).
  - apply (bool_decide_unpack _). vm_compute. exact I.
  - vm_compute. reflexivity.
  - apply (bool_decide_unpack _). vm_compute. exact I.
Defined.

(** ** Events, one after another *)

(** X12. Clicks at different charts commute: the page after both does not
    depend on which came first. *)
Theorem clicks_at_two_charts (argsort : list Z → list nat) (df : list Row)
    (page : gmap string Rendering) (ev1 ev2 : SelectionEvent) :
  ev_source ev1 ≠ ev_source ev2 →
  dispatch argsort df (dispatch argsort df page ev1) ev2
  = dispatch argsort df (dispatch argsort df page ev2) ev1.
Proof.
  intros Hne.
  destruct (dispatch_bound argsort df (ev_source ev1))
    as [Hnone1|(cb1 & Hin1 & Hinput1 & Hcb1)];
  destruct (dispatch_bound argsort df (ev_source ev2))
    as [Hnone2|(cb2 & Hin2 & Hinput2 & Hcb2)].
  - by rewrite (Hnone1 page ev1), (Hnone1 (dispatch argsort df page ev2) ev1).
  - by rewrite (Hnone1 page ev1), (Hnone1 (dispatch argsort df page ev2) ev1).
  - by rewrite (Hnone2 page ev2), (Hnone2 (dispatch argsort df page ev1) ev2).
  - rewrite (Hcb1 page ev1), (Hcb2 page ev2) by done.
    rewrite (Hcb1 _ ev1), (Hcb2 _ ev2) by done. apply fire_comm.
    apply (callbacks_outputs argsort df); congruence.
Qed.

Lemma clicks_at_two_charts_witness :
  let page := initial_page npysort.argsort df_three in
  let ev1 := {| ev_source := "top-breaches-chart"; ev_click := click 100 "Alpha" |} in
  let ev2 := {| ev_source := "breaches-over-time-chart"; ev_click := click 2019 "2" |} in
  dispatch npysort.argsort df_three (dispatch npysort.argsort df_three page ev1) ev2
  = dispatch npysort.argsort df_three (dispatch npysort.argsort df_three page ev2) ev1.
Proof.
  intros page ev1 ev2.
  apply (clicks_at_two_charts npysort.argsort df_three page ev1 ev2). discriminate.
Defined.

(** X13. A click payload whose list of points is empty makes each of the
    three callbacks raise [IndexError], and the page stays as it was,
    whichever component the click is sent to. *)
Theorem empty_points_ignored (argsort : list Z → list nat) (df : list Row)
    (clickData : ClickData) :
  points clickData = [] →
  display_breach_details df (Some clickData) = Raise IndexError ∧
  update_top_breaches_for_year argsort df (Some clickData) = Raise IndexError ∧
  display_yearly_breach_details df (Some clickData) = Raise IndexError ∧
  ∀ page source,
    dispatch argsort df page {| ev_source := source; ev_click := clickData |} = page.
Proof.
  intros Hp.
  assert (point0 clickData = Raise IndexError) as H0
    by (unfold point0; by rewrite Hp).
  assert (display_breach_details df (Some clickData) = Raise IndexError) as H1
    by (unfold display_breach_details; by rewrite H0).
  assert (update_top_breaches_for_year argsort df (Some clickData)
          = Raise IndexError) as H2
    by (unfold update_top_breaches_for_year; by rewrite H0).
  assert (display_yearly_breach_details df (Some clickData) = Raise IndexError) as H3
    by (unfold display_yearly_breach_details; by rewrite H0).
  split_and!; try done. intros page source.
  destruct (dispatch_bound argsort df source) as [Hnone|(cb & Hin & Hinput & Hcb)].
  - by apply Hnone.
  - rewrite Hcb by done. unfold fire. cbn [ev_click].
    unfold callbacks in Hin. rewrite !elem_of_cons, elem_of_nil in Hin.
    destruct Hin as [->|[->|[->|[]]]]; cbn [cb_fun];
      [rewrite H1|rewrite H2|rewrite H3]; done.
Qed.

Lemma empty_points_ignored_witness :
  display_breach_details df_three (Some {| points := [] |}) = Raise IndexError ∧
  update_top_breaches_for_year npysort.argsort df_three (Some {| points := [] |})
    = Raise IndexError ∧
  display_yearly_breach_details df_three (Some {| points := [] |})
    = Raise IndexError ∧
  ∀ page source,
    dispatch npysort.argsort df_three page
      {| ev_source := source; ev_click := {| points := [] |} |} = page.
Proof.
  apply (empty_points_ignored npysort.argsort df_three {| points := [] |}).
  reflexivity.
Defined.

(** ** From the payload to the detail panel *)

Lemma load_first_match (to_datetime : string → option Timestamp)
    (strip_markup : string → string) (data : list RawBreach) (title : string) :
  title ∈ raw_Title <$> data →
  ∃ before raw after,
    data = before ++ raw :: after ∧ raw_Title raw = title ∧
    Forall (λ r, raw_Title r ≠ title) before ∧
    iloc0 (rows_with_title (prepare to_datetime strip_markup data) title)
      = Ok (prepare_row to_datetime strip_markup raw).
Proof.
  unfold rows_with_title, prepare. induction data as [|r data IH]; intros Hin.
  - by apply elem_of_nil in Hin.
  - rewrite fmap_cons. destruct (decide (raw_Title r = title)) as [Heq|Hne].
    + exists [], r, data. rewrite filter_cons_True by done. by repeat split.
    + rewrite fmap_cons, elem_of_cons in Hin.
      destruct Hin as [Heq|Hin]; [congruence|].
      destruct (IH Hin) as (before & raw & after & -> & Ht & Hb & Hi).
      exists (r :: before), raw, after.
      rewrite filter_cons_False by done. repeat split; auto.
Qed.

(** X14. From the payload to the panel: a click on a title that occurs in
    the payload makes [display_breach_details] on the loaded frame work
    on the first record with that title.  It returns the text built from
    its title, its date as [to_datetime] reads it, its [PwnCount] with
    thousands separators, and its description with the markup removed;
    when [to_datetime] reads a date that [datetime.date] refuses, it
    raises [NotImplementedError] instead. *)
Theorem load_then_click (to_datetime : string → option Timestamp)
    (data : list RawBreach) (clickData : ClickData) (point : Point)
    (rest : list Point) :
  points clickData = point :: rest →
  pt_y point ∈ raw_Title <$> data →
  ∃ before raw after,
    data = before ++ raw :: after ∧ raw_Title raw = pt_y point ∧
    Forall (λ r, raw_Title r ≠ pt_y point) before ∧
    display_breach_details (load to_datetime data) (Some clickData)
    = (breach_date ← date_str (to_datetime (raw_BreachDate raw));
       Ok ("Breach: " +:+ raw_Title raw +:+ nl +:+
           "Breach Date: " +:+ breach_date +:+ nl +:+
           "Accounts Affected: " +:+ thousands (raw_PwnCount raw) +:+ nl +:+ nl +:+
           "Description:" +:+ nl +:+ str_replace_markup (raw_Description raw))) ∧
    (∀ t, to_datetime (raw_BreachDate raw) = Some t → ¬ valid_date t →
       display_breach_details (load to_datetime data) (Some clickData)
       = Raise NotImplementedError).
Proof.
  intros Hp Hin.
  destruct (load_first_match to_datetime str_replace_markup data _ Hin)
    as (before & raw & after & Hdata & Ht & Hb & Hi).
  exists before, raw, after.
  destruct (display_details_found (load to_datetime data) clickData point rest
              _ Hp Hi) as [Hshow _].
  split_and!; try done.
  intros t Hdate Hinvalid. rewrite Hshow.
  destruct (breach_text_cases (prepare_row to_datetime str_replace_markup raw))
    as (_ & _ & Hraise & _).
  by apply (Hraise t).
Qed.

Lemma load_then_click_witness :
  ∃ before raw after,
    sample_raw = before ++ raw :: after ∧ raw_Title raw = "Adobe" ∧
    Forall (λ r, raw_Title r ≠ "Adobe") before ∧
    display_breach_details (load iso_date sample_raw) (Some (click 1 "Adobe"))
    = (breach_date ← date_str (iso_date (raw_BreachDate raw));
       Ok ("Breach: " +:+ raw_Title raw +:+ nl +:+
           "Breach Date: " +:+ breach_date +:+ nl +:+
           "Accounts Affected: " +:+ thousands (raw_PwnCount raw) +:+ nl +:+ nl +:+
           "Description:" +:+ nl +:+ str_replace_markup (raw_Description raw))) ∧
    (∀ t, iso_date (raw_BreachDate raw) = Some t → ¬ valid_date t →
       display_breach_details (load iso_date sample_raw) (Some (click 1 "Adobe"))
       = Raise NotImplementedError).
Proof.
  apply (load_then_click iso_date sample_raw (click 1 "Adobe")
           {| pt_x := 1; pt_y := "Adobe" |} []); [reflexivity|].
  apply (bool_decide_unpack _). vm_compute. exact I.
Defined.

(** ** Data classes and breaches *)

Lemma occurrences_NoDup `{EqDecision K} (c : K) (l : list K) :
  NoDup l → occurrences c l = if decide (c ∈ l) then 1%nat else 0%nat.
Proof.
  intros Hnd. case_decide as Hin; [|by apply occurrences_absent].
  induction Hnd as [|x l Hx Hnd IH]; [by apply elem_of_nil in Hin|].
  change (x :: l) with ([x] ++ l). rewrite occurrences_app.
  destruct (decide (x = c)) as [->|Hne].
  - rewrite (occurrences_absent l c) by done. unfold occurrences.
    by rewrite filter_cons_True.
  - apply elem_of_cons in Hin as [->|Hin]; [done|].
    rewrite IH by done. unfold occurrences. by rewrite filter_cons_False.
Qed.

Lemma all_classes_occurrences (c : string) (df : list Row) :
  Forall (λ r, NoDup (DataClasses r)) df →
  occurrences c (all_classes df) = length (filter (λ r, c ∈ DataClasses r) df).
Proof.
  rewrite all_classes_concat.
  induction 1 as [|r df Hr _ IH]; [done|].
  rewrite fmap_cons. cbn [concat]. rewrite occurrences_app, IH, occurrences_NoDup by done.
  case_decide.
  - by rewrite filter_cons_True.
  - by rewrite filter_cons_False.
Qed.

(** X15. When no breach lists a data class twice, the count [class_counts]
    gives for a class is the number of breaches that list it, and it is
    at least one. *)
Theorem class_count_is_breach_count (df : list Row) (k : nat) (c : string) (n : nat) :
  Forall (λ r, NoDup (DataClasses r)) df →
  (c, n) ∈ class_counts_head k df →
  n = length (filter (λ r, c ∈ DataClasses r) df) ∧ (0 < n)%nat.
Proof.
  intros Hnd Hin. unfold class_counts_head, head, most_common in Hin.
  apply subseteq_take in Hin. rewrite sorted_by_count_reverse_perm in Hin.
  apply elem_of_Counter in Hin as [Hc ->].
  split; [by apply all_classes_occurrences|by apply occurrences_present].
Qed.

Lemma class_count_is_breach_count_witness :
  3%nat = length (filter (λ r, "Passwords" ∈ DataClasses r) sample_df) ∧ (0 < 3)%nat.
Proof.
  apply (class_count_is_breach_count sample_df 20 "Passwords" 3).
  - apply (bool_decide_unpack _). vm_compute. exact I.
  - apply (bool_decide_unpack _). vm_compute. exact I.
Defined.

(** ** The two slices of the pie *)

Lemma NoDup_bool_length (l : list bool) : NoDup l → (length l ≤ 2)%nat.
Proof.
  intros Hnd. destruct l as [|a [|b [|c l]]]; simpl; try lia.
  exfalso. apply NoDup_cons in Hnd as [Ha Hnd]. apply NoDup_cons in Hnd as [Hb _].
  apply not_elem_of_cons in Ha as [Hab Ha].
  apply not_elem_of_cons in Ha as [Hac _].
  apply not_elem_of_cons in Hb as [Hbc _].
  by destruct a, b, c.
Qed.

Section VerifiedFacts.
Context (argsort : list Z → list nat) (df : list Row).
Hypothesis argsort_ok :
  is_argsort (reverse (count_values (verified_tally df)))
             (argsort (reverse (count_values (verified_tally df)))).

Lemma series_sorted_perm :
  series_sort_values argsort (verified_tally df) ≡ₚ verified_tally df.
Proof.
  unfold series_sort_values. apply take_rows_perm.
  rewrite <- (length_fmap (λ kc : bool * nat, Z.of_nat kc.2)).
  by apply nargsort_descending_perm.
Qed.

Lemma series_sorted_descending :
  StronglySorted (λ a b : bool * nat, (b.2 ≤ a.2)%nat)
    (series_sort_values argsort (verified_tally df)).
Proof.
  eapply StronglySorted_mono;
    [|apply (StronglySorted_fmap_inv (λ kc : bool * nat, Z.of_nat kc.2)
               (λ a b, b ≤ a))].
  { intros a b. simpl. lia. }
  unfold series_sort_values. rewrite take_rows_fmap.
  fold (count_values (verified_tally df)). rewrite take_rows_total.
  - by apply nargsort_descending_sorted.
  - apply perm_seq_bound. by apply nargsort_descending_perm.
Qed.
End VerifiedFacts.

(** X16. When [argsort] sorts the bucket counts, [verified_counts] has at
    most two rows with different labels, none with count zero, and the
    larger count comes first: a frame without unverified breaches gives a
    pie of one slice. *)
Theorem verified_counts_order (argsort : list Z → list nat) (df : list Row) :
  is_argsort (reverse (count_values (verified_tally df)))
             (argsort (reverse (count_values (verified_tally df)))) →
  let counts := verified_counts argsort df in
  (length counts ≤ 2)%nat ∧
  NoDup (counts.*1) ∧
  StronglySorted (λ a b, (b.2 ≤ a.2)%nat) counts ∧
  (∀ label n, (label, n) ∈ counts → (0 < n)%nat) ∧
  (filter (λ r, IsVerified r = Some false) df = [] →
   ∀ label n, (label, n) ∈ counts → label = "Verified").
Proof.
  intros Hok counts.
  pose proof (series_sorted_perm argsort df Hok) as Hperm.
  pose proof (series_sorted_descending argsort df Hok) as Hsorted.
  assert (counts = prod_map rename_verified id
                     <$> series_sort_values argsort (verified_tally df)) as Hc by done.
  assert (NoDup ((verified_tally df).*1)) as Hnd.
  { unfold verified_tally. rewrite Counter_keys. apply NoDup_distinct. }
  assert (∀ b n, (b, n) ∈ series_sort_values argsort (verified_tally df) →
            n = length (filter (λ r, IsVerified r = Some b) df) ∧ (0 < n)%nat) as Hrow.
  { intros b n Hin. rewrite Hperm in Hin. unfold verified_tally in Hin.
    apply elem_of_Counter in Hin as [Hb ->]. split; [apply flags_occurrences|].
    by apply occurrences_present. }
  split_and!.
  - rewrite Hc, length_fmap, Hperm, <- (length_fmap fst).
    by apply NoDup_bool_length.
  - rewrite Hc, <- list_fmap_compose.
    replace (fst ∘ prod_map rename_verified id)
      with (rename_verified ∘ (fst : bool * nat → bool)) by done.
    rewrite list_fmap_compose. apply (NoDup_fmap_2 _). by rewrite Hperm.
  - rewrite Hc.
    eapply (StronglySorted_fmap (prod_map rename_verified id)); [|exact Hsorted].
    by intros [] [].
  - intros label n Hin. rewrite Hc in Hin.
    apply list_elem_of_fmap in Hin as ([b m] & [= -> ->] & Hin).
    by apply Hrow in Hin as [_ ?].
  - intros Hnone label n Hin. rewrite Hc in Hin.
    apply list_elem_of_fmap in Hin as ([b m] & [= -> ->] & Hin).
    apply Hrow in Hin as [-> Hpos]. destruct b; [done|].
    rewrite Hnone in Hpos. simpl in Hpos. lia.
Qed.

Lemma verified_counts_order_witness :
  let counts := verified_counts npysort.argsort df_three in
  (length counts ≤ 2)%nat ∧
  NoDup (counts.*1) ∧
  StronglySorted (λ a b, (b.2 ≤ a.2)%nat) counts ∧
  (∀ label n, (label, n) ∈ counts → (0 < n)%nat) ∧
  (filter (λ r, IsVerified r = Some false) df_three = [] →
   ∀ label n, (label, n) ∈ counts → label = "Verified").
Proof.
  apply (verified_counts_order npysort.argsort df_three).
  apply (bool_decide_unpack _). vm_compute. exact I.
Defined.

(** ** What a page can hold *)

Lemma display_breach_details_ok (df : list Row) (cd : ClickData) (text : string) :
  display_breach_details df (Some cd) = Ok text →
  ∃ row, row ∈ df ∧ breach_text row = Ok text.
Proof.
  unfold display_breach_details. destruct (point0 cd) as [p|]; [|done]. simpl.
  destruct (iloc0 (rows_with_title df (pt_y p))) as [row|] eqn:Hrow; [|done].
  simpl. intros Htext. exists row. split; [|done].
  unfold iloc0 in Hrow.
  destruct (rows_with_title df (pt_y p)) as [|r l] eqn:E; [done|].
  injection Hrow as ->.
  assert (row ∈ rows_with_title df (pt_y p)) as Hin by (rewrite E; left).
  by apply list_elem_of_filter in Hin as [_ ?].
Qed.

Lemma display_yearly_breach_details_ok (df : list Row) (cd : ClickData)
    (text : string) :
  display_yearly_breach_details df (Some cd) = Ok text →
  ∃ row, row ∈ df ∧ breach_text row = Ok text.
Proof.
  unfold display_yearly_breach_details. destruct (point0 cd) as [p|]; [|done]. simpl.
  destruct (iloc0 (rows_with_title df (pt_y p))) as [row|] eqn:Hrow; [|done].
  simpl. intros Htext. exists row. split; [|done].
  unfold iloc0 in Hrow.
  destruct (rows_with_title df (pt_y p)) as [|r l] eqn:E; [done|].
  injection Hrow as ->.
  assert (row ∈ rows_with_title df (pt_y p)) as Hin by (rewrite E; left).
  by apply list_elem_of_filter in Hin as [_ ?].
Qed.

Lemma update_top_breaches_for_year_ok (argsort : list Z → list nat)
    (df : list Row) (cd : ClickData) (fig : Figure) :
  update_top_breaches_for_year argsort df (Some cd) = Ok fig →
  ∃ year,
    fig_title fig = "Top 5 Breaches in " +:+ pretty year ∧
    (length (fig_frame fig) ≤ 5)%nat ∧
    ∀ row, row ∈ fig_frame fig → row ∈ df ∧ Year row = Some year.
Proof.
  unfold update_top_breaches_for_year. destruct (point0 cd) as [p|]; [|done].
  intros Hfig.
  change (Ok {| fig_frame := top_n argsort 5 (rows_of_year df (pt_x p));
                fig_title := "Top 5 Breaches in " +:+ pretty (pt_x p) |} = Ok fig)
    in Hfig.
  assert (fig = {| fig_frame := top_n argsort 5 (rows_of_year df (pt_x p));
                   fig_title := "Top 5 Breaches in " +:+ pretty (pt_x p) |})
    as -> by congruence.
  exists (pt_x p). cbn [fig_title fig_frame]. split_and!.
  - done.
  - unfold top_n, head. rewrite length_take. lia.
  - intros row Hin. apply (top_n_elem argsort 5) in Hin.
    by apply list_elem_of_filter in Hin as [? ?].
Qed.

Section PageInvariant.
Context (argsort : list Z → list nat) (df : list Row).

Lemma initial_page_ok : page_ok df (initial_page argsort df).
Proof.
  destruct (initial_page_lookup argsort df) as (I1 & I2 & I3).
  unfold page_ok. rewrite I1, I2, I3. split_and!; by left.
Qed.

Lemma dispatch_page_ok (page : gmap string Rendering) (ev : SelectionEvent) :
  page_ok df page → page_ok df (dispatch argsort df page ev).
Proof.
  intros (H1 & H2 & H3). unfold page_ok. split_and!.
  - destruct (dispatch_cases argsort df page ev "breach-details")
      as [->|(cb & r & Hin & Hout & Hf & ->)]; [done|].
    unfold callbacks in Hin. rewrite !elem_of_cons, elem_of_nil in Hin.
    destruct Hin as [->|[->|[->|[]]]]; try discriminate Hout.
    cbn [cb_fun] in Hf.
    destruct (display_breach_details df (Some (ev_click ev))) as [text|] eqn:Hd;
      [|done].
    injection Hf as <-. right.
    destruct (display_breach_details_ok _ _ _ Hd) as (row & ? & ?).
    by exists row, text.
  - destruct (dispatch_cases argsort df page ev "top-breaches-year-chart")
      as [->|(cb & r & Hin & Hout & Hf & ->)]; [done|].
    unfold callbacks in Hin. rewrite !elem_of_cons, elem_of_nil in Hin.
    destruct Hin as [->|[->|[->|[]]]]; try discriminate Hout.
    cbn [cb_fun] in Hf.
    destruct (update_top_breaches_for_year argsort df (Some (ev_click ev)))
      as [fig|] eqn:Hd; [|done].
    injection Hf as <-. right.
    destruct (update_top_breaches_for_year_ok _ _ _ _ Hd) as (year & ? & ? & ?).
    by exists fig, year.
  - destruct (dispatch_cases argsort df page ev "yearly-breach-details")
      as [->|(cb & r & Hin & Hout & Hf & ->)]; [done|].
    unfold callbacks in Hin. rewrite !elem_of_cons, elem_of_nil in Hin.
    destruct Hin as [->|[->|[->|[]]]]; try discriminate Hout.
    cbn [cb_fun] in Hf.
    destruct (display_yearly_breach_details df (Some (ev_click ev)))
      as [text|] eqn:Hd; [|done].
    injection Hf as <-. right.
    destruct (display_yearly_breach_details_ok _ _ _ Hd) as (row & ? & ?).
    by exists row, text.
Qed.
End PageInvariant.

(** X17. Whatever is clicked, in whatever order, each detail panel holds
    its prompt or the text of a row of [df], and the year chart holds its
    prompt or a figure of at most five rows of [df], all of the year in
    its title: a page never shows what is not in the frame. *)
Theorem reachable_pages_show_rows (argsort : list Z → list nat) (df : list Row)
    (evs : list SelectionEvent) :
  page_ok df (run argsort df (initial_page argsort df) evs).
Proof.
  unfold run. induction evs as [|ev evs IH] using rev_ind.
  - apply initial_page_ok.
  - rewrite foldl_snoc. by apply dispatch_page_ok.
Qed.
